(** * Simple Serialize-to-Image: a shallow embedding of [serializeToImage.py]

    The module stores integers, strings, lists and user-defined objects in
    the colour channels of a pixel surface.  [ImgHandler] is a cursor over
    the surface: every byte read or written is one channel of one pixel,
    three bytes per pixel, row after row.

    Python objects are mutable; here every method of [ImgHandler] is a
    function from the handler before the call to an [outcome]: the value
    returned (or the exception raised) together with the handler after the
    call.  An exception keeps the mutations made before it was raised, as in
    Python. *)

From Stdlib Require Import ZArith Lia String.
From stdpp Require Import base numbers list gmap.

Open Scope Z_scope.

(** ** Module-level constants and type aliases *)

Definition pxl : Type := Z * Z * Z.
Definition position : Type := Z * Z.

Definition I32MAX : Z := 2147483647.
Definition U32MAX : Z := 4294967295.

Definition I64MAX : Z := 9223372036854775807.
Definition U64MAX : Z := 18446744073709551615.

(** ** Python exceptions

    The module raises nothing by itself.  What can surface to a caller is
    what the integer division of the coordinate computation raises, what
    [chr] raises, and whatever the surface or a user-defined object raises. *)

Inductive exn : Type :=
| ZeroDivisionError
| ValueError
| IndexError
| OtherError (name : string).

(** ** Pixels

    [color[b_pos]] and [color[b_pos] = b] on the three-channel pixel that
    [get_at] returned.  [b_pos] is always a remainder modulo 3. *)

Definition pxl_getitem (color : pxl) (b_pos : Z) : Z :=
  let '(c0, c1, c2) := color in
  if b_pos =? 0 then c0 else if b_pos =? 1 then c1 else c2.

Definition pxl_setitem (color : pxl) (b_pos : Z) (b : Z) : pxl :=
  let '(c0, c1, c2) := color in
  if b_pos =? 0 then (b, c1, c2)
  else if b_pos =? 1 then (c0, b, c2)
  else (c0, c1, b).

(** ** Strings

    A Python [str] is a sequence of code points.  [ord] is the code point of
    a character; [chr] is defined on [range(0x110000)] only. *)

Definition str : Type := list Z.

Definition ord (char : Z) : Z := char.

Definition chr (i : Z) : exn + Z :=
  if (0 <=? i) && (i <? 1114112) then inr i else inl ValueError.

Definition len {A} (l : list A) : Z := Z.of_nat (length l).

(** [range(n)]: empty when [n] is not positive. *)
Definition range (n : Z) : list Z := Z.of_nat <$> seq 0 (Z.to_nat n).

(** ** The surface protocol

    [ImgSurface] is the protocol a surface follows to be used by the
    handler.  [get_at] and [set_at] may raise; [set_at] returns the surface
    after the assignment. *)

Class ImgSurface (S : Type) : Type := {
  get_at : S -> position -> exn + pxl;
  set_at : S -> position -> pxl -> exn + S;
  get_width : S -> Z;
  get_height : S -> Z
}.

(** ** The handler *)

Record ImgHandler (S : Type) : Type := mkImgHandler {
  surface : S;
  next_byte : Z;
  w : Z;
  h : Z
}.
Arguments mkImgHandler {S} _ _ _ _.
Arguments surface {S} _.
Arguments next_byte {S} _.
Arguments w {S} _.
Arguments h {S} _.

Inductive outcome (S A : Type) : Type :=
| Ok (a : A) (self : ImgHandler S)
| Raise (e : exn) (self : ImgHandler S).
Arguments Ok {S A} _ _.
Arguments Raise {S A} _ _.

(** The handler a call leaves behind, whether it returned or raised. *)
Definition handler_after {S A} (o : outcome S A) : ImgHandler S :=
  match o with Ok _ self => self | Raise _ self => self end.

Definition M (S A : Type) : Type := ImgHandler S -> outcome S A.

Definition ret {S A} (a : A) : M S A := fun self => Ok a self.

Definition raise {S A} (e : exn) : M S A := fun self => Raise e self.

Definition bind {S A B} (m : M S A) (k : A -> M S B) : M S B :=
  fun self =>
    match m self with
    | Ok a self' => k a self'
    | Raise e self' => Raise e self'
    end.

Notation "x <- m ;; k" := (bind m (fun x => k))
  (at level 100, m at next level, right associativity).
Notation "m ;; k" := (bind m (fun _ => k))
  (at level 100, right associativity).

(** [for a in l: body(a)] *)
Fixpoint for_each {S A} (body : A -> M S unit) (l : list A) : M S unit :=
  match l with
  | [] => ret tt
  | a :: l' => body a ;; for_each body l'
  end.

(** [for _ in range(n): acc = body(acc)] *)
Fixpoint for_range {S A} (n : nat) (body : A -> M S A) (acc : A) : M S A :=
  match n with
  | O => ret acc
  | Datatypes.S n' => acc' <- body acc ;; for_range n' body acc'
  end.

Section Handler.
Context {S : Type} {HS : ImgSurface S}.

(** [ImgHandler.__init__] *)
Definition init (surf : S) : ImgHandler S :=
  {| surface := surf;
     next_byte := 0;
     w := get_width surf;
     h := get_height surf |}.

Definition width (self : ImgHandler S) : Z := w self.
Definition height (self : ImgHandler S) : Z := h self.

Definition write_next_byte (b : Z) : M S unit := fun self =>
  let b_pos := next_byte self mod 3 in
  if w self =? 0 then Raise ZeroDivisionError self else
  let y := next_byte self / 3 / w self in
  let x := (next_byte self / 3) mod w self in
  match get_at (surface self) (x, y) with
  | inl e => Raise e self
  | inr color =>
      let color := pxl_setitem color b_pos b in
      match set_at (surface self) (x, y) color with
      | inl e => Raise e self
      | inr surf =>
          Ok tt {| surface := surf;
                   next_byte := next_byte self + 1;
                   w := w self;
                   h := h self |}
      end
  end.

Definition write_next_i32 (val : Z) : M S unit :=
  for_each (fun byte_pos =>
    let mask := 255 in
    let byte := Z.land (Z.shiftr val ((3 - byte_pos) * 8)) mask in
    write_next_byte byte) (range 4).

Definition write_next_i64 (val : Z) : M S unit :=
  for_each (fun byte_pos =>
    let mask := 255 in
    let byte := Z.land (Z.shiftr val ((7 - byte_pos) * 8)) mask in
    write_next_byte byte) (range 8).

Definition write_next_string (val : str) : M S unit :=
  write_next_i64 (len val) ;;
  for_each (fun char =>
    let byte := ord char in
    write_next_byte byte) val.

Definition read_next_byte : M S Z := fun self =>
  let b_pos := next_byte self mod 3 in
  if w self =? 0 then Raise ZeroDivisionError self else
  let y := next_byte self / 3 / w self in
  let x := (next_byte self / 3) mod w self in
  match get_at (surface self) (x, y) with
  | inl e => Raise e self
  | inr color =>
      Ok (pxl_getitem color b_pos)
         {| surface := surface self;
            next_byte := next_byte self + 1;
            w := w self;
            h := h self |}
  end.

(** [read_next_bytes] is a generator: each byte is read when the loop
    that consumes it asks for it, so the loop body runs between two reads.
    [read_next_bytes size body acc] is

      [for byte in self.read_next_bytes(size): acc = body(acc, byte)]. *)
Definition read_next_bytes {A} (size : Z) (body : A -> Z -> M S A)
    (acc : A) : M S A :=
  for_range (Z.to_nat size)
    (fun acc => byte <- read_next_byte ;; body acc byte) acc.

Definition read_next_i32 : M S Z :=
  output <- read_next_bytes 4
              (fun output byte =>
                 let output := Z.shiftl output 8 in
                 ret (output + byte)) 0 ;;
  ret (output - (if output >=? I32MAX then 1 else 0) * (U32MAX + 1)).

Definition read_next_i64 : M S Z :=
  output <- read_next_bytes 8
              (fun output byte =>
                 let output := Z.shiftl output 8 in
                 ret (output + byte)) 0 ;;
  ret (output - (if output >=? I64MAX then 1 else 0) * (U64MAX + 1)).

Definition read_next_string : M S str :=
  size <- read_next_i64 ;;
  read_next_bytes size
    (fun output ord =>
       match chr ord with
       | inl e => raise e
       | inr char => ret (output ++ [char])
       end) [].

End Handler.

(** ** The object protocol

    [ImgSerializable]: an object writes itself through the handler it is
    given, and its class rebuilds an instance from a handler.  [Obj] is the
    type of the objects of a program and [Cls] the type of their classes. *)

Class ImgSerializable (S Obj Cls : Type) : Type := {
  img_serialize : Obj -> M S unit;
  img_deserialize : Cls -> M S Obj
}.

(** The values [write_next] tells apart with [isinstance], and the types
    [read_next] tells apart: [int], [str], a [GenericAlias] such as
    [list[int]] (with its first argument), and any other class. *)

#[warnings="-register-all"]
Inductive value (Obj : Type) : Type :=
| VInt (z : Z)
| VStr (s : str)
| VList (l : list (value Obj))
| VObj (o : Obj).
Arguments VInt {Obj} _.
Arguments VStr {Obj} _.
Arguments VList {Obj} _.
Arguments VObj {Obj} _.

Inductive typ (Cls : Type) : Type :=
| TInt
| TStr
| TList (inner_typ : typ Cls)
| TObj (cls : Cls).
Arguments TInt {Cls}.
Arguments TStr {Cls}.
Arguments TList {Cls} _.
Arguments TObj {Cls} _.

Section Dispatch.
Context {S Obj Cls : Type} {HS : ImgSurface S}
  {HO : ImgSerializable S Obj Cls}.

Definition write_next_object (cls : Obj) : M S unit :=
  img_serialize cls.

(** [write_next] and [write_next_list] call each other; the body of
    [write_next_list] is written out in the [VList] branch. *)
Fixpoint write_next (val : value Obj) : M S unit :=
  match val with
  | VInt z => write_next_i64 z
  | VStr s => write_next_string s
  | VList l =>
      write_next_i64 (len l) ;;
      for_each (fun item => write_next item) l
  | VObj o => write_next_object o
  end.

Definition write_next_list (val : list (value Obj)) : M S unit :=
  write_next_i64 (len val) ;;
  for_each (fun item => write_next item) val.

Definition read_next_object (cls : Cls) : M S Obj :=
  img_deserialize cls.

(** [read_next_list], with the reader of its items as an argument. *)
Definition read_next_list_with (read_item : M S (value Obj))
    : M S (list (value Obj)) :=
  size <- read_next_i64 ;;
  for_range (Z.to_nat size)
    (fun output => item <- read_item ;; ret (output ++ [item])) [].

Fixpoint read_next (typ : typ Cls) : M S (value Obj) :=
  match typ with
  | TInt => z <- read_next_i64 ;; ret (VInt z)
  | TStr => s <- read_next_string ;; ret (VStr s)
  | TList inner_typ =>
      l <- read_next_list_with (read_next inner_typ) ;; ret (VList l)
  | TObj cls => o <- read_next_object cls ;; ret (VObj o)
  end.

Definition read_next_list (inner_typ : typ Cls) : M S (list (value Obj)) :=
  read_next_list_with (read_next inner_typ).

End Dispatch.

(** ** The example class of the module's demonstration *)

Module Player_Example.

Record t : Type := mk { x : Z; y : Z; health : Z; name : str }.

(** [Player_Example.__init__]; the name is "Jonny Razer". *)
Definition new : t :=
  {| x := 0; y := 0; health := 100;
     name := [74; 111; 110; 110; 121; 32; 82; 97; 122; 101; 114] |}.

Section Protocol.
Context {S : Type} {HS : ImgSurface S}.

Definition img_serialize (self : t) : M S unit :=
  write_next_i32 (x self) ;;
  write_next_i32 (y self) ;;
  write_next_i32 (health self) ;;
  write_next_string (name self).

Definition img_deserialize : M S t :=
  let inst := new in
  x' <- read_next_i32 ;;
  y' <- read_next_i32 ;;
  health' <- read_next_i32 ;;
  name' <- read_next_string ;;
  ret {| x := x'; y := y'; health := health'; name := name' |}.
End Protocol.

End Player_Example.

(** The class table of a program whose only class is [Player_Example]. *)
Inductive player_class : Type := Player_Example_cls.

#[export] Instance Player_Example_serializable {S} `{ImgSurface S}
  : ImgSerializable S Player_Example.t player_class := {
  img_serialize := Player_Example.img_serialize;
  img_deserialize := fun _ => Player_Example.img_deserialize
}.

(** [simple_player] of the demonstration; the name is "Mega man". *)
Definition simple_player : Player_Example.t :=
  Player_Example.mk 600 784 48 [77; 101; 103; 97; 32; 109; 97; 110].

(** ** Surfaces *)

Definition in_grid (W H : Z) (pos : position) : bool :=
  (0 <=? pos.1) && (pos.1 <? W) && (0 <=? pos.2) && (pos.2 <? H).

Definition is_byte (b : Z) : bool := (0 <=? b) && (b <=? 255).

Definition is_byte_pxl (color : pxl) : bool :=
  let '(c0, c1, c2) := color in is_byte c0 && is_byte c1 && is_byte c2.

Definition black : pxl := (0, 0, 0).

(** Modelled from the spec: the pixel grid, which the repository leaves to
    the caller (pygame's Surface in the demonstration).  A surface is a 2D
    grid of pixels of width W and height H, addressed by (x, y) with
    0 <= x < W and 0 <= y < H; a pixel is a triple of 8-bit channels.  This
    grid checks its bounds: an access outside the grid raises [IndexError],
    and a channel outside 0..255 raises [ValueError]. *)
Record Grid : Type := mkGrid {
  grid_w : Z;
  grid_h : Z;
  grid_pixels : gmap (Z * Z) pxl
}.

#[export] Instance Grid_surface : ImgSurface Grid := {
  get_at g pos :=
    if in_grid (grid_w g) (grid_h g) pos
    then inr (default black (grid_pixels g !! pos))
    else inl IndexError;
  set_at g pos color :=
    if in_grid (grid_w g) (grid_h g) pos
    then if is_byte_pxl color
         then inr (mkGrid (grid_w g) (grid_h g)
                     (<[pos := color]> (grid_pixels g)))
         else inl ValueError
    else inl IndexError;
  get_width := grid_w;
  get_height := grid_h
}.

(** A black grid, as after [win.fill((0,0,0))]. *)
Definition new_grid (W H : Z) : Grid := mkGrid W H ∅.

(** Modelled from the spec: a surface over a raw pixel buffer, without host
    bounds checking.  The spec names both behaviours for the reference
    ("lets it silently wrap or error depending on host bounds checking",
    "silently truncates via raw byte write"): here a coordinate wraps around
    the grid instead of raising, and a channel keeps the low 8 bits of what
    is stored into it. *)
Record RawBuffer : Type := mkRawBuffer {
  raw_w : Z;
  raw_h : Z;
  raw_pixels : gmap (Z * Z) pxl
}.

Definition raw_wrap (g : RawBuffer) (pos : position) : position :=
  (pos.1 mod raw_w g, pos.2 mod raw_h g).

Definition truncate_pxl (color : pxl) : pxl :=
  let '(c0, c1, c2) := color in (c0 mod 256, c1 mod 256, c2 mod 256).

#[export] Instance RawBuffer_surface : ImgSurface RawBuffer := {
  get_at g pos := inr (default black (raw_pixels g !! raw_wrap g pos));
  set_at g pos color :=
    inr (mkRawBuffer (raw_w g) (raw_h g)
           (<[raw_wrap g pos := truncate_pxl color]> (raw_pixels g)));
  get_width := raw_w;
  get_height := raw_h
}.

Definition new_raw (W H : Z) : RawBuffer := mkRawBuffer W H ∅.

(** ** What a surface owes the handler

    The handler relies on the surface being a grid of 8-bit pixels: inside
    the grid a pixel can be read, and a pixel that is stored is the pixel
    read back afterwards at that position, every other pixel and the size of
    the surface staying as they were.  [surface_ok] is the invariant of the
    surface's representation.  Nothing is asked outside the grid. *)

Class ImgSurfaceLaws (S : Type) `{ImgSurface S} : Type := {
  surface_ok : S -> Prop;
  get_at_ok : forall (s : S) (pos : position),
    surface_ok s ->
    in_grid (get_width s) (get_height s) pos = true ->
    exists color, get_at s pos = inr color /\ is_byte_pxl color = true;
  set_at_ok : forall (s : S) (pos : position) (color : pxl),
    surface_ok s ->
    in_grid (get_width s) (get_height s) pos = true ->
    is_byte_pxl color = true ->
    exists s', set_at s pos color = inr s' /\
      surface_ok s' /\
      get_width s' = get_width s /\
      get_height s' = get_height s /\
      get_at s' pos = inr color /\
      (forall pos', pos' <> pos ->
         in_grid (get_width s) (get_height s) pos' = true ->
         get_at s' pos' = get_at s pos')
}.

(** A surface with host bounds checking: [get_at] raises outside the grid. *)
Class BoundsChecked (S : Type) `{ImgSurface S} : Prop :=
  get_at_outside : forall (s : S) (pos : position),
    in_grid (get_width s) (get_height s) pos = false ->
    exists e, get_at s pos = inl e.

(** ** The mapping from a byte index to a channel of a pixel, as specified

    channel = next_byte mod 3, linear_pixel = next_byte div 3,
    x = linear_pixel mod W, y = linear_pixel div W. *)

Definition spec_channel (n : Z) : Z := n mod 3.
Definition spec_linear_pixel (n : Z) : Z := n / 3.
Definition spec_x (W n : Z) : Z := spec_linear_pixel n mod W.
Definition spec_y (W n : Z) : Z := spec_linear_pixel n / W.

(** The byte of index [k] of a surface read with rows of [W] pixels. *)
Definition byte_at {S} `{ImgSurface S} (s : S) (W : Z) (k : Z) : option Z :=
  match get_at s (spec_x W k, spec_y W k) with
  | inr color => Some (pxl_getitem color (spec_channel k))
  | inl _ => None
  end.

(** The handler after [k] more bytes have been consumed. *)
Definition advance {S} (self : ImgHandler S) (k : Z) : ImgHandler S :=
  {| surface := surface self;
     next_byte := next_byte self + k;
     w := w self;
     h := h self |}.

(** The handler that starts over at byte [n] of the same surface. *)
Definition seek {S} (self : ImgHandler S) (n : Z) : ImgHandler S :=
  {| surface := surface self;
     next_byte := n;
     w := w self;
     h := h self |}.

Definition capacity {S} (self : ImgHandler S) : Z := 3 * w self * h self.

(** A handler as [init] makes it and the write methods keep it. *)
Definition handler_ok {S} `{ImgSurfaceLaws S} (self : ImgHandler S) : Prop :=
  surface_ok (surface self) /\
  w self = get_width (surface self) /\
  h self = get_height (surface self) /\
  0 < w self /\ 0 <= next_byte self.

(** ** Observing an outcome *)

(** The value returned by a call, if it returned. *)
Definition returned {S A} (o : outcome S A) : option A :=
  match o with Ok a _ => Some a | Raise _ _ => None end.

(** ** The stream of bytes of a surface *)

(** The contents of a surface from byte [n] on start with [bs]. *)
Definition holds {S} `{ImgSurface S} (s : S) (W n : Z) (bs : list Z) : Prop :=
  forall (i : nat) (b : Z),
    bs !! i = Some b -> byte_at s W (n + Z.of_nat i) = Some b.

(** ** The integer codec, piece by piece *)

(** The bytes [write_next_i32] and [write_next_i64] hand to
    [write_next_byte], in the order they are written. *)
Definition bytes_i32 (val : Z) : list Z :=
  (fun byte_pos => Z.land (Z.shiftr val ((3 - byte_pos) * 8)) 255) <$> range 4.

Definition bytes_i64 (val : Z) : list Z :=
  (fun byte_pos => Z.land (Z.shiftr val ((7 - byte_pos) * 8)) 255) <$> range 8.

(** The loop body of [read_next_i32] and [read_next_i64]. *)
Definition shift_in (output byte : Z) : Z := Z.shiftl output 8 + byte.

(** The last line of [read_next_i32] and of [read_next_i64]. *)
Definition signed_i32 (output : Z) : Z :=
  output - (if output >=? I32MAX then 1 else 0) * (U32MAX + 1).

Definition signed_i64 (output : Z) : Z :=
  output - (if output >=? I64MAX then 1 else 0) * (U64MAX + 1).

(** ** Writers and readers that mirror each other *)

(** [write] hands the bytes [bs] to [write_next_byte] and nothing else,
    and [read], started where [bs] is stored, returns [a] and stops right
    after [bs]. *)
Record encodes {S} {HS : ImgSurface S} {A} (write : M S unit)
    (read : M S A) (a : A) (bs : list Z) : Prop := {
  enc_bytes : Forall (fun b => is_byte b = true) bs;
  enc_write : forall self,
    write self = for_each write_next_byte bs self;
  enc_read : forall self,
    w self <> 0 ->
    holds (surface self) (w self) (next_byte self) bs ->
    read self = Ok a (advance self (len bs))
}.

(** ** Values and the types they are read at *)

(** The values, with the type they are read at, whose round trip is proved
    below: the 64-bit integers but the largest one, the strings of 8-bit
    code points, the lists of such values of one type, and the objects that
    their class writes and reads back in mirror order. *)
Fixpoint supported {S Obj Cls} {HS : ImgSurface S}
    {HO : ImgSerializable S Obj Cls} (t : typ Cls) (val : value Obj)
    : Prop :=
  match t, val with
  | TInt, VInt z => - 2 ^ 63 <= z < 2 ^ 63 - 1
  | TStr, VStr s => Forall (fun b => is_byte b = true) s /\ len s < I64MAX
  | TList inner_typ, VList l =>
      Forall (supported inner_typ) l /\ len l < I64MAX
  | TObj cls, VObj o =>
      exists bs, encodes (img_serialize o) (img_deserialize cls) o bs
  | _, _ => False
  end.

(** ** Reading leaves the surface alone *)

(** A method that leaves the surface, and the cached size, as they were,
    whether it returns or raises: all it may move is [next_byte]. *)
Definition reads_only {S A} (m : M S A) : Prop :=
  forall self,
    surface (handler_after (m self)) = surface self /\
    w (handler_after (m self)) = w self /\
    h (handler_after (m self)) = h self.

(** ** The invariants of the two surfaces *)

Definition grid_ok (g : Grid) : Prop :=
  forall pos color, grid_pixels g !! pos = Some color ->
    is_byte_pxl color = true.

Definition raw_ok (g : RawBuffer) : Prop :=
  0 < raw_w g /\ 0 < raw_h g /\
  forall pos color, raw_pixels g !! pos = Some color ->
    is_byte_pxl color = true.

(** ** The cursor only moves forward *)

(** A method that never moves [next_byte] back and never touches the cached
    size, whether it returns or raises. *)
Definition moves_forward {S A} (m : M S A) : Prop :=
  forall self,
    next_byte self <= next_byte (handler_after (m self)) /\
    w (handler_after (m self)) = w self /\
    h (handler_after (m self)) = h self.

(** * Properties *)

(** ** Arithmetic of the mapping *)

Lemma in_grid_true (W H x y : Z) :
  in_grid W H (x, y) = true <-> 0 <= x < W /\ 0 <= y < H.
Proof.
  unfold in_grid; simpl.
  rewrite !andb_true_iff, !Z.leb_le, !Z.ltb_lt. lia.
Qed.

Lemma in_grid_false (W H x y : Z) :
  in_grid W H (x, y) = false <-> ~ (0 <= x < W /\ 0 <= y < H).
Proof.
  rewrite <- in_grid_true. destruct (in_grid W H (x, y)); split; congruence.
Qed.

Lemma spec_coordinate_rowmajor (W n : Z) :
  0 < W -> 0 <= n ->
  0 <= spec_channel n < 3 /\
  0 <= spec_x W n < W /\
  0 <= spec_y W n /\
  n = 3 * (spec_y W n * W + spec_x W n) + spec_channel n.
Proof.
  intros HW Hn. unfold spec_channel, spec_x, spec_y, spec_linear_pixel.
  pose proof (Z.mod_pos_bound n 3 ltac:(lia)).
  pose proof (Z.div_mod n 3 ltac:(lia)).
  assert (0 <= n / 3) by (apply Z.div_pos; lia).
  pose proof (Z.mod_pos_bound (n / 3) W HW).
  pose proof (Z.div_mod (n / 3) W ltac:(lia)).
  assert (0 <= n / 3 / W) by (apply Z.div_pos; lia).
  repeat split; lia.
Qed.

Lemma spec_coordinate_in_grid (W H n : Z) :
  0 < W -> 0 <= n < 3 * W * H ->
  in_grid W H (spec_x W n, spec_y W n) = true.
Proof.
  intros HW Hn.
  destruct (spec_coordinate_rowmajor W n HW ltac:(lia)) as (Hc & Hx & Hy & E).
  apply in_grid_true. split; [lia|]. split; [lia|]. nia.
Qed.

Lemma spec_coordinate_outside (W H n : Z) :
  0 < W -> 3 * W * H <= n -> 0 <= n ->
  in_grid W H (spec_x W n, spec_y W n) = false.
Proof.
  intros HW Hn Hn0.
  destruct (spec_coordinate_rowmajor W n HW Hn0) as (Hc & Hx & Hy & E).
  apply in_grid_false. intros [_ [_ Hlt]]. nia.
Qed.

Lemma spec_coordinate_inj (W n k : Z) :
  0 < W -> 0 <= n -> 0 <= k ->
  spec_x W n = spec_x W k -> spec_y W n = spec_y W k ->
  spec_channel n = spec_channel k -> n = k.
Proof.
  intros HW Hn Hk Ex Ey Ec.
  destruct (spec_coordinate_rowmajor W n HW Hn) as (_ & _ & _ & En).
  destruct (spec_coordinate_rowmajor W k HW Hk) as (_ & _ & _ & Ek).
  rewrite En, Ek, Ex, Ey, Ec. reflexivity.
Qed.

(** ** Pixels *)

Lemma pxl_get_set_same (color : pxl) (i b : Z) :
  pxl_getitem (pxl_setitem color i b) i = b.
Proof.
  destruct color as [[c0 c1] c2]. unfold pxl_getitem, pxl_setitem.
  destruct (i =? 0); [reflexivity|].
  destruct (i =? 1); reflexivity.
Qed.

Lemma pxl_get_set_other (color : pxl) (i j b : Z) :
  0 <= i < 3 -> 0 <= j < 3 -> i <> j ->
  pxl_getitem (pxl_setitem color i b) j = pxl_getitem color j.
Proof.
  intros Hi Hj Hij. destruct color as [[c0 c1] c2].
  unfold pxl_getitem, pxl_setitem.
  destruct (Z.eqb_spec i 0), (Z.eqb_spec i 1), (Z.eqb_spec j 0),
    (Z.eqb_spec j 1); try reflexivity; lia.
Qed.

Lemma pxl_setitem_byte (color : pxl) (i b : Z) :
  is_byte_pxl color = true -> is_byte b = true ->
  is_byte_pxl (pxl_setitem color i b) = true.
Proof.
  destruct color as [[c0 c1] c2]. unfold is_byte_pxl, pxl_setitem.
  rewrite !andb_true_iff. intros [[H0 H1] H2] Hb.
  destruct (i =? 0); [|destruct (i =? 1)]; rewrite !andb_true_iff; auto.
Qed.

(** ** The monad *)

Lemma bind_ok {S A B} (m : M S A) (k : A -> M S B) self a self' :
  m self = Ok a self' -> bind m k self = k a self'.
Proof. intros E. unfold bind. rewrite E. reflexivity. Qed.

Lemma bind_raise {S A B} (m : M S A) (k : A -> M S B) self e self' :
  m self = Raise e self' -> bind m k self = Raise e self'.
Proof. intros E. unfold bind. rewrite E. reflexivity. Qed.

Lemma for_each_app {S A} (l1 l2 : list A) (body : A -> M S unit) self :
  for_each body (l1 ++ l2) self = (for_each body l1 ;; for_each body l2) self.
Proof.
  revert self. induction l1 as [|a l1 IH]; intros self; simpl.
  - reflexivity.
  - unfold bind in *. destruct (body a self) as [[] self'|e self'].
    + apply IH.
    + reflexivity.
Qed.

Lemma for_each_fmap {S A B} (f : A -> B) (l : list A) (body : B -> M S unit)
    self :
  for_each body (f <$> l) self = for_each (fun a => body (f a)) l self.
Proof.
  revert self. induction l as [|a l IH]; intros self; simpl.
  - reflexivity.
  - unfold bind. destruct (body (f a) self); auto.
Qed.

Lemma advance_advance {S} (self : ImgHandler S) (j k : Z) :
  advance (advance self j) k = advance self (j + k).
Proof. unfold advance; simpl. f_equal. lia. Qed.

Lemma advance_0 {S} (self : ImgHandler S) : advance self 0 = self.
Proof. destruct self. unfold advance; simpl. f_equal. lia. Qed.

(** ** One byte, and bytes in a row *)

Section Bytes.
Context {S : Type} {HS : ImgSurface S} {HL : ImgSurfaceLaws S}.

Lemma read_next_byte_at (self : ImgHandler S) (b : Z) :
  w self <> 0 ->
  byte_at (surface self) (w self) (next_byte self) = Some b ->
  read_next_byte self = Ok b (advance self 1).
Proof.
  intros HW Hb. unfold read_next_byte, byte_at in *.
  destruct (Z.eqb_spec (w self) 0) as [|_]; [contradiction|].
  unfold spec_x, spec_y, spec_linear_pixel, spec_channel in Hb.
  destruct (get_at (surface self) _) as [e|color]; [discriminate|].
  injection Hb as <-. reflexivity.
Qed.

Lemma write_next_byte_ok (self : ImgHandler S) (b : Z) :
  handler_ok self ->
  next_byte self < capacity self ->
  is_byte b = true ->
  exists self',
    write_next_byte b self = Ok tt self' /\
    handler_ok self' /\
    next_byte self' = next_byte self + 1 /\
    w self' = w self /\ h self' = h self /\
    byte_at (surface self') (w self) (next_byte self) = Some b /\
    (forall k, 0 <= k < capacity self -> k <> next_byte self ->
       byte_at (surface self') (w self) k
       = byte_at (surface self) (w self) k).
Proof.
  intros (Hok & EW & EH & HW & Hn) Hcap Hb. unfold capacity in *.
  set (n := next_byte self) in *. set (W := w self) in *.
  assert (Hin : in_grid (get_width (surface self))
                  (get_height (surface self)) (spec_x W n, spec_y W n)
                = true).
  { rewrite <- EW, <- EH. apply spec_coordinate_in_grid; lia. }
  destruct (get_at_ok _ _ Hok Hin) as (color & Eget & Hcolor).
  pose proof (pxl_setitem_byte color (spec_channel n) b Hcolor Hb) as Hnew.
  destruct (set_at_ok _ _ _ Hok Hin Hnew)
    as (s' & Eset & Hok' & EW' & EH' & Eget' & Hframe).
  eexists. split; [|split; [|split; [|split; [|split; [|split]]]]].
  - unfold write_next_byte. fold n W.
    destruct (Z.eqb_spec W 0) as [|_]; [lia|].
    unfold spec_x, spec_y, spec_linear_pixel, spec_channel in Eget, Eset.
    rewrite Eget, Eset. reflexivity.
  - unfold handler_ok; simpl. fold n W.
    rewrite EW', EH'. repeat split; auto; lia.
  - reflexivity.
  - reflexivity.
  - reflexivity.
  - simpl. unfold byte_at. rewrite Eget'.
    rewrite pxl_get_set_same. reflexivity.
  - intros k Hk Hne. simpl. unfold byte_at.
    destruct (decide ((spec_x W k, spec_y W k) = (spec_x W n, spec_y W n)))
      as [E|NE].
    + rewrite E, Eget', Eget. f_equal.
      injection E as Ex Ey.
      destruct (spec_coordinate_rowmajor W k HW ltac:(lia)) as (Hck & _).
      destruct (spec_coordinate_rowmajor W n HW Hn) as (Hcn & _).
      apply pxl_get_set_other; auto.
      intros Ec. apply Hne. apply (spec_coordinate_inj W); auto; lia.
    + rewrite (Hframe _ NE); [reflexivity|].
      rewrite <- EW, <- EH. apply spec_coordinate_in_grid; lia.
Qed.

(** Bytes written one after the other. *)
Lemma write_bytes_ok (bs : list Z) : forall (self : ImgHandler S),
  handler_ok self ->
  Forall (fun b => is_byte b = true) bs ->
  next_byte self + len bs <= capacity self ->
  exists self',
    for_each write_next_byte bs self = Ok tt self' /\
    handler_ok self' /\
    next_byte self' = next_byte self + len bs /\
    w self' = w self /\ h self' = h self /\
    holds (surface self') (w self) (next_byte self) bs /\
    (forall k, 0 <= k < capacity self ->
       k < next_byte self \/ next_byte self + len bs <= k ->
       byte_at (surface self') (w self) k
       = byte_at (surface self) (w self) k).
Proof.
  induction bs as [|b bs IH]; intros self Hok Hbs Hcap.
  - exists self. simpl. unfold len; simpl.
    split; [reflexivity|]. split; [exact Hok|]. split; [lia|].
    split; [reflexivity|]. split; [reflexivity|]. split; [|reflexivity].
    intros i b Hi. rewrite lookup_nil in Hi. discriminate.
  - inversion Hbs as [|? ? Hb Hbs']; subst.
    unfold len in *; simpl length in *.
    assert (Hn : 0 <= next_byte self) by (destruct Hok as (_&_&_&_&?); auto).
    destruct (write_next_byte_ok self b Hok ltac:(lia) Hb)
      as (s1 & E1 & Hok1 & N1 & W1 & H1 & B1 & F1).
    assert (C1 : capacity s1 = capacity self)
      by (unfold capacity; rewrite W1, H1; reflexivity).
    destruct (IH s1 Hok1 Hbs' ltac:(unfold len; lia))
      as (s2 & E2 & Hok2 & N2 & W2 & H2 & B2 & F2).
    exists s2. simpl for_each. rewrite (bind_ok _ _ _ _ _ E1).
    unfold len in *.
    split; [exact E2|]. split; [exact Hok2|].
    split; [lia|]. split; [congruence|]. split; [congruence|].
    rewrite W1, C1 in *. split.
    + intros [|i] b' Hi; simpl in Hi.
      * injection Hi as <-. rewrite Z.add_0_r.
        rewrite F2 by lia. exact B1.
      * replace (next_byte self + Z.of_nat (Datatypes.S i))
          with (next_byte s1 + Z.of_nat i) by lia.
        apply B2. exact Hi.
    + intros k Hk Hout. rewrite F2 by lia. apply F1; lia.
Qed.

(** Bytes read one after the other by a loop whose body does not raise
    on them. *)
Lemma read_next_bytes_holds {A} (body : A -> Z -> M S A) (f : A -> Z -> A)
    (bs : list Z) : forall (acc : A) (self : ImgHandler S),
  w self <> 0 ->
  holds (surface self) (w self) (next_byte self) bs ->
  (forall acc b self, In b bs -> body acc b self = Ok (f acc b) self) ->
  read_next_bytes (len bs) body acc self
  = Ok (fold_left f bs acc) (advance self (len bs)).
Proof.
  unfold read_next_bytes, len. rewrite Nat2Z.id.
  induction bs as [|b bs IH]; intros acc self HW Hbs Hbody.
  - simpl. unfold ret. rewrite advance_0. reflexivity.
  - simpl for_range. simpl fold_left.
    assert (E : read_next_byte self = Ok b (advance self 1)).
    { apply read_next_byte_at; auto.
      specialize (Hbs 0%nat b eq_refl). rewrite Z.add_0_r in Hbs. auto. }
    rewrite (bind_ok _ _ self (f acc b) (advance self 1))
      by (rewrite (bind_ok _ _ _ _ _ E); apply Hbody; left; reflexivity).
    rewrite IH.
    + rewrite advance_advance. do 2 f_equal. simpl length. lia.
    + exact HW.
    + intros i b' Hi. simpl.
      replace (next_byte self + 1 + Z.of_nat i)
        with (next_byte self + Z.of_nat (Datatypes.S i)) by lia.
      apply Hbs. exact Hi.
    + intros acc' b' self' Hin. apply Hbody. right. exact Hin.
Qed.

End Bytes.

(** ** Fixed-width integers *)

Lemma recombine (val j j' k k' : Z) :
  0 <= j -> 0 <= k -> j' = j + 8 -> k' = k + 8 ->
  shift_in (Z.shiftr val j' mod 2 ^ k) (Z.land (Z.shiftr val j) 255)
  = Z.shiftr val j mod 2 ^ k'.
Proof.
  intros Hj Hk -> ->. unfold shift_in.
  rewrite Z.shiftl_mul_pow2 by lia.
  change 255 with (Z.ones 8). rewrite Z.land_ones by lia.
  rewrite !Z.shiftr_div_pow2 by lia.
  rewrite Z.pow_add_r by lia.
  rewrite <- Z.div_div by lia.
  rewrite (Z.add_comm k 8), Z.pow_add_r by lia.
  rewrite Z.rem_mul_r by lia. lia.
Qed.

Lemma fold_bytes_i32 (val : Z) :
  fold_left shift_in (bytes_i32 val) 0 = val mod 2 ^ 32.
Proof.
  unfold bytes_i32. change (range 4) with [0; 1; 2; 3].
  cbn [fmap list_fmap fold_left].
  replace 0 with (Z.shiftr val 32 mod 2 ^ 0) at 1
    by (rewrite Z.pow_0_r; apply Z.mod_1_r).
  change ((3 - 0) * 8) with 24. change ((3 - 1) * 8) with 16.
  change ((3 - 2) * 8) with 8. change ((3 - 3) * 8) with 0.
  rewrite (recombine val 24 32 0 8) by lia.
  rewrite (recombine val 16 24 8 16) by lia.
  rewrite (recombine val 8 16 16 24) by lia.
  rewrite (recombine val 0 8 24 32) by lia.
  rewrite Z.shiftr_0_r. reflexivity.
Qed.

Lemma fold_bytes_i64 (val : Z) :
  fold_left shift_in (bytes_i64 val) 0 = val mod 2 ^ 64.
Proof.
  unfold bytes_i64. change (range 8) with [0; 1; 2; 3; 4; 5; 6; 7].
  cbn [fmap list_fmap fold_left].
  replace 0 with (Z.shiftr val 64 mod 2 ^ 0) at 1
    by (rewrite Z.pow_0_r; apply Z.mod_1_r).
  change ((7 - 0) * 8) with 56. change ((7 - 1) * 8) with 48.
  change ((7 - 2) * 8) with 40. change ((7 - 3) * 8) with 32.
  change ((7 - 4) * 8) with 24. change ((7 - 5) * 8) with 16.
  change ((7 - 6) * 8) with 8. change ((7 - 7) * 8) with 0.
  rewrite (recombine val 56 64 0 8) by lia.
  rewrite (recombine val 48 56 8 16) by lia.
  rewrite (recombine val 40 48 16 24) by lia.
  rewrite (recombine val 32 40 24 32) by lia.
  rewrite (recombine val 24 32 32 40) by lia.
  rewrite (recombine val 16 24 40 48) by lia.
  rewrite (recombine val 8 16 48 56) by lia.
  rewrite (recombine val 0 8 56 64) by lia.
  rewrite Z.shiftr_0_r. reflexivity.
Qed.

(** What comes back for a value written with the 64-bit width: the value
    itself, except at the largest one. *)
Lemma signed_i64_mod (val : Z) :
  - 2 ^ 63 <= val < 2 ^ 63 - 1 -> signed_i64 (val mod 2 ^ 64) = val.
Proof.
  intros Hval. unfold signed_i64, I64MAX, U64MAX.
  destruct (Z.le_gt_cases 0 val) as [Hpos|Hneg].
  - rewrite Z.mod_small by lia.
    destruct (Z.geb_spec val 9223372036854775807); lia.
  - replace (val mod 2 ^ 64) with (val + 2 ^ 64).
    + destruct (Z.geb_spec (val + 2 ^ 64) 9223372036854775807); lia.
    + apply Z.mod_unique with (q := -1); lia.
Qed.

Lemma signed_i32_mod (val : Z) :
  - 2 ^ 31 <= val < 2 ^ 31 - 1 -> signed_i32 (val mod 2 ^ 32) = val.
Proof.
  intros Hval. unfold signed_i32, I32MAX, U32MAX.
  destruct (Z.le_gt_cases 0 val) as [Hpos|Hneg].
  - rewrite Z.mod_small by lia.
    destruct (Z.geb_spec val 2147483647); lia.
  - replace (val mod 2 ^ 32) with (val + 2 ^ 32).
    + destruct (Z.geb_spec (val + 2 ^ 32) 2147483647); lia.
    + apply Z.mod_unique with (q := -1); lia.
Qed.

Lemma bytes_i64_byte (val : Z) :
  Forall (fun b => is_byte b = true) (bytes_i64 val).
Proof.
  unfold bytes_i64. apply Forall_fmap, Forall_forall. intros i _. simpl.
  change 255 with (Z.ones 8). rewrite Z.land_ones by lia.
  pose proof (Z.mod_pos_bound (Z.shiftr val ((7 - i) * 8)) (2 ^ 8) ltac:(lia)).
  unfold is_byte. apply andb_true_iff. rewrite Z.leb_le, Z.leb_le.
  change (2 ^ 8) with 256 in *. lia.
Qed.

Lemma bytes_i32_byte (val : Z) :
  Forall (fun b => is_byte b = true) (bytes_i32 val).
Proof.
  unfold bytes_i32. apply Forall_fmap, Forall_forall. intros i _. simpl.
  change 255 with (Z.ones 8). rewrite Z.land_ones by lia.
  pose proof (Z.mod_pos_bound (Z.shiftr val ((3 - i) * 8)) (2 ^ 8) ltac:(lia)).
  unfold is_byte. apply andb_true_iff. rewrite Z.leb_le, Z.leb_le.
  change (2 ^ 8) with 256 in *. lia.
Qed.

(** ** Composing writers and readers *)

Lemma holds_app_l {S} `{ImgSurface S} (s : S) (W n : Z) (bs1 bs2 : list Z) :
  holds s W n (bs1 ++ bs2) -> holds s W n bs1.
Proof.
  intros Hh i b Hi. apply Hh. apply lookup_app_l_Some. exact Hi.
Qed.

Lemma holds_app_r {S} `{ImgSurface S} (s : S) (W n : Z) (bs1 bs2 : list Z) :
  holds s W n (bs1 ++ bs2) -> holds s W (n + len bs1) bs2.
Proof.
  intros Hh i b Hi. unfold len.
  replace (n + Z.of_nat (length bs1) + Z.of_nat i)
    with (n + Z.of_nat (length bs1 + i)) by lia.
  apply Hh. rewrite lookup_app_r by lia.
  replace (length bs1 + i - length bs1)%nat with i by lia. exact Hi.
Qed.

Lemma len_app {A} (l1 l2 : list A) : len (l1 ++ l2) = len l1 + len l2.
Proof. unfold len. rewrite length_app. lia. Qed.

Lemma fold_left_snoc {A} (l acc : list A) :
  fold_left (fun output a => output ++ [a]) l acc = acc ++ l.
Proof.
  revert acc. induction l as [|a l IH]; intros acc; simpl.
  - rewrite app_nil_r. reflexivity.
  - rewrite IH, <- app_assoc. reflexivity.
Qed.

Section Mirror.
Context {S : Type} {HS : ImgSurface S} {HL : ImgSurfaceLaws S}.

Lemma encodes_ret {A} (a : A) : encodes (ret tt) (ret a) a [].
Proof.
  split.
  - constructor.
  - reflexivity.
  - intros self _ _. unfold ret, len. simpl. rewrite advance_0. reflexivity.
Qed.

Lemma encodes_bind {A B} (w1 w2 : M S unit) (r1 : M S A) (k : A -> M S B)
    (a : A) (b : B) (bs1 bs2 : list Z) :
  encodes w1 r1 a bs1 ->
  encodes w2 (k a) b bs2 ->
  encodes (w1 ;; w2) (bind r1 k) b (bs1 ++ bs2).
Proof.
  intros [B1 W1 R1] [B2 W2 R2]. split.
  - apply Forall_app. split; assumption.
  - intros self. rewrite for_each_app. unfold bind. rewrite W1.
    destruct (for_each write_next_byte bs1 self) as [[] self'|e self'];
      [apply W2 | reflexivity].
  - intros self HW Hh.
    rewrite (bind_ok _ _ _ _ _ (R1 self HW (holds_app_l _ _ _ _ _ Hh))).
    rewrite R2.
    + rewrite advance_advance, len_app. reflexivity.
    + exact HW.
    + simpl. apply holds_app_r. exact Hh.
Qed.

Lemma encodes_fmap {A B} (write : M S unit) (read : M S A) (f : A -> B)
    (a : A) (bs : list Z) :
  encodes write read a bs ->
  encodes write (x <- read ;; ret (f x)) (f a) bs.
Proof.
  intros [B1 W1 R1]. split; [exact B1|exact W1|].
  intros self HW Hh. rewrite (bind_ok _ _ _ _ _ (R1 self HW Hh)).
  reflexivity.
Qed.

Lemma encodes_i64_mod (val : Z) :
  encodes (write_next_i64 val) read_next_i64
    (signed_i64 (val mod 2 ^ 64)) (bytes_i64 val).
Proof.
  split.
  - apply bytes_i64_byte.
  - intros self. unfold write_next_i64, bytes_i64.
    rewrite for_each_fmap. reflexivity.
  - intros self HW Hh. unfold read_next_i64.
    change 8 with (len (bytes_i64 val)).
    rewrite (bind_ok _ _ _ _ _
               (read_next_bytes_holds _ shift_in _ 0 self HW Hh
                  (fun _ _ _ _ => eq_refl))).
    rewrite fold_bytes_i64. reflexivity.
Qed.

Lemma encodes_i32_mod (val : Z) :
  encodes (write_next_i32 val) read_next_i32
    (signed_i32 (val mod 2 ^ 32)) (bytes_i32 val).
Proof.
  split.
  - apply bytes_i32_byte.
  - intros self. unfold write_next_i32, bytes_i32.
    rewrite for_each_fmap. reflexivity.
  - intros self HW Hh. unfold read_next_i32.
    change 4 with (len (bytes_i32 val)).
    rewrite (bind_ok _ _ _ _ _
               (read_next_bytes_holds _ shift_in _ 0 self HW Hh
                  (fun _ _ _ _ => eq_refl))).
    rewrite fold_bytes_i32. reflexivity.
Qed.

Lemma encodes_i64 (val : Z) :
  - 2 ^ 63 <= val < 2 ^ 63 - 1 ->
  encodes (write_next_i64 val) read_next_i64 val (bytes_i64 val).
Proof.
  intros Hval. pose proof (encodes_i64_mod val) as E.
  rewrite signed_i64_mod in E by exact Hval. exact E.
Qed.

Lemma encodes_i32 (val : Z) :
  - 2 ^ 31 <= val < 2 ^ 31 - 1 ->
  encodes (write_next_i32 val) read_next_i32 val (bytes_i32 val).
Proof.
  intros Hval. pose proof (encodes_i32_mod val) as E.
  rewrite signed_i32_mod in E by exact Hval. exact E.
Qed.

Lemma chr_byte (b : Z) : is_byte b = true -> chr b = inr b.
Proof.
  unfold is_byte, chr. rewrite andb_true_iff, !Z.leb_le. intros [Hlo Hhi].
  destruct (Z.leb_spec 0 b); [|lia].
  destruct (Z.ltb_spec b 1114112); [reflexivity|lia].
Qed.

(** The characters of a string, after its length. *)
Lemma encodes_chars (val : str) :
  Forall (fun b => is_byte b = true) val ->
  encodes (for_each write_next_byte val)
    (read_next_bytes (len val)
       (fun output ord =>
          match chr ord with
          | inl e => raise e
          | inr char => ret (output ++ [char])
          end) [])
    val val.
Proof.
  intros Hval. split.
  - exact Hval.
  - reflexivity.
  - intros self HW Hh.
    rewrite (read_next_bytes_holds _ (fun output b => output ++ [b])
               val [] self HW Hh).
    + rewrite fold_left_snoc. reflexivity.
    + intros acc b self' Hin.
      rewrite Forall_forall in Hval.
      rewrite chr_byte; [reflexivity|].
      apply Hval. apply list_elem_of_In. exact Hin.
Qed.

Lemma encodes_string (val : str) :
  Forall (fun b => is_byte b = true) val ->
  len val < I64MAX ->
  encodes (write_next_string val) read_next_string val
    (bytes_i64 (len val) ++ val).
Proof.
  intros Hval Hlen. unfold write_next_string, read_next_string.
  apply encodes_bind with (a := len val).
  - apply encodes_i64. unfold I64MAX, len in *. lia.
  - apply encodes_chars. exact Hval.
Qed.

(** The items of a list, after its length. *)
Lemma encodes_items {A} (write_item : A -> M S unit) (read_item : M S A)
    (items : list A) (bss : list (list Z)) :
  Forall2 (fun item bs => encodes (write_item item) read_item item bs)
    items bss ->
  forall output,
    encodes (for_each write_item items)
      (for_range (length items)
         (fun output => item <- read_item ;; ret (output ++ [item]))
         output)
      (output ++ items) (concat bss).
Proof.
  induction 1 as [|item bs items bss Hitem _ IH]; intros output.
  - simpl. rewrite app_nil_r. apply encodes_ret.
  - simpl for_each. simpl for_range. simpl concat.
    replace (output ++ item :: items) with ((output ++ [item]) ++ items)
      by (rewrite <- app_assoc; reflexivity).
    apply encodes_bind with (a := output ++ [item]); [|apply IH].
    apply (encodes_fmap _ _ (fun item => output ++ [item])). exact Hitem.
Qed.

Lemma encodes_list {A} (write_item : A -> M S unit) (read_item : M S A)
    (items : list A) (bss : list (list Z)) :
  Forall2 (fun item bs => encodes (write_item item) read_item item bs)
    items bss ->
  len items < I64MAX ->
  encodes (write_next_i64 (len items) ;; for_each write_item items)
    (size <- read_next_i64 ;;
     for_range (Z.to_nat size)
       (fun output => item <- read_item ;; ret (output ++ [item])) [])
    items (bytes_i64 (len items) ++ concat bss).
Proof.
  intros Hitems Hlen.
  apply encodes_bind with (a := len items).
  - apply encodes_i64. unfold I64MAX, len in *. lia.
  - unfold len at 1. rewrite Nat2Z.id.
    apply (encodes_items _ _ _ _ Hitems []).
Qed.

(** Written at byte [n] and read back from byte [n] of the surface the
    write left: the value comes back, and the reading cursor stops where
    the writing cursor stopped. *)
Lemma encodes_round_trip {A} (write : M S unit) (read : M S A) (a : A)
    (bs : list Z) (self : ImgHandler S) :
  encodes write read a bs ->
  handler_ok self ->
  next_byte self + len bs <= capacity self ->
  exists self',
    write self = Ok tt self' /\
    handler_ok self' /\
    next_byte self' = next_byte self + len bs /\
    read (seek self' (next_byte self)) = Ok a self'.
Proof.
  intros [HB HWr HRd] Hok Hcap.
  destruct (write_bytes_ok bs self Hok HB Hcap)
    as (self' & E & Hok' & N' & W' & H' & Hh & _).
  exists self'. rewrite HWr. split; [exact E|]. split; [exact Hok'|].
  split; [exact N'|].
  rewrite HRd.
  - f_equal. destruct self'. unfold advance, seek. simpl in *.
    f_equal. lia.
  - simpl. destruct Hok as (_ & _ & _ & HW & _). lia.
  - simpl. rewrite W'. exact Hh.
Qed.

End Mirror.

(** ** The round trip of values *)

Section Values.
Context {S Obj Cls : Type} {HS : ImgSurface S} {HL : ImgSurfaceLaws S}
  {HO : ImgSerializable S Obj Cls}.

Lemma supported_encodes (t : typ Cls) : forall (val : value Obj),
  supported t val ->
  exists bs, encodes (write_next val) (read_next t) val bs.
Proof.
  induction t as [| |inner_typ IH|cls]; intros [z|s|l|o] Hsup;
    simpl in Hsup; try contradiction.
  - exists (bytes_i64 z). simpl.
    apply (encodes_fmap _ _ VInt), encodes_i64. exact Hsup.
  - destruct Hsup as [Hs Hlen]. exists (bytes_i64 (len s) ++ s). simpl.
    apply (encodes_fmap _ _ VStr), encodes_string; assumption.
  - destruct Hsup as [Hl Hlen].
    assert (Hbss : exists bss,
               Forall2 (fun item bs =>
                          encodes (write_next item) (read_next inner_typ)
                            item bs) l bss).
    { clear Hlen. induction Hl as [|item l Hitem _ IHl].
      - exists []. constructor.
      - destruct (IH item Hitem) as [bs Hbs]. destruct IHl as [bss Hbss].
        exists (bs :: bss). constructor; assumption. }
    destruct Hbss as [bss Hbss].
    exists (bytes_i64 (len l) ++ concat bss).
    apply (encodes_fmap _ _ VList).
    apply (encodes_list (fun item => write_next item)); assumption.
  - destruct Hsup as [bs Hbs]. exists bs. simpl.
    apply (encodes_fmap _ _ VObj). exact Hbs.
Qed.

(** X11 (round trip of the supported values): a supported value, nested
    lists and objects included, takes a number of bytes that does not
    depend on where it is written, and wherever that many bytes are left
    [write_next] writes it without error and [read_next], at its type and
    from the same byte, returns it as it was. *)
Lemma supported_round_trip (t : typ Cls) (val : value Obj) :
  supported t val ->
  exists size : Z,
    forall self : ImgHandler S,
      handler_ok self ->
      next_byte self + size <= capacity self ->
      exists self',
        write_next val self = Ok tt self' /\
        next_byte self' = next_byte self + size /\
        read_next t (seek self' (next_byte self)) = Ok val self'.
Proof.
  intros Hsup.
  destruct (supported_encodes t val Hsup) as [bs Hbs].
  exists (len bs). intros self Hok Hcap.
  destruct (encodes_round_trip _ _ _ _ self Hbs Hok Hcap)
    as (self' & E & _ & N & R).
  exists self'. split; [exact E|]. split; [exact N|exact R].
Qed.

End Values.

(** ** The example class *)

Lemma Player_Example_encodes {S} {HS : ImgSurface S} {HL : ImgSurfaceLaws S}
    (p : Player_Example.t) :
  - 2 ^ 31 <= Player_Example.x p < 2 ^ 31 - 1 ->
  - 2 ^ 31 <= Player_Example.y p < 2 ^ 31 - 1 ->
  - 2 ^ 31 <= Player_Example.health p < 2 ^ 31 - 1 ->
  Forall (fun b => is_byte b = true) (Player_Example.name p) ->
  len (Player_Example.name p) < I64MAX ->
  encodes (Player_Example.img_serialize p) Player_Example.img_deserialize p
    (bytes_i32 (Player_Example.x p) ++ bytes_i32 (Player_Example.y p) ++
     bytes_i32 (Player_Example.health p) ++
     bytes_i64 (len (Player_Example.name p)) ++ Player_Example.name p).
Proof.
  destruct p as [x y health name].
  unfold Player_Example.img_serialize, Player_Example.img_deserialize.
  cbn [Player_Example.x Player_Example.y Player_Example.health
       Player_Example.name].
  intros Hx Hy Hh Hname Hlen.
  apply encodes_bind with (a := x); [apply encodes_i32; exact Hx|].
  apply encodes_bind with (a := y); [apply encodes_i32; exact Hy|].
  apply encodes_bind with (a := health); [apply encodes_i32; exact Hh|].
  apply (encodes_fmap _ _ (Player_Example.mk x y health)).
  apply encodes_string; assumption.
Qed.

(** ** The two surfaces are pixel grids *)

Lemma Grid_get_at_ok (g : Grid) (pos : position) :
  grid_ok g ->
  in_grid (get_width g) (get_height g) pos = true ->
  exists color, get_at g pos = inr color /\ is_byte_pxl color = true.
Proof.
  intros Hok Hin. simpl in *. rewrite Hin.
  eexists. split; [reflexivity|].
  destruct (grid_pixels g !! pos) as [color|] eqn:E; simpl.
  - apply (Hok pos). exact E.
  - reflexivity.
Qed.

Lemma Grid_set_at_ok (g : Grid) (pos : position) (color : pxl) :
  grid_ok g ->
  in_grid (get_width g) (get_height g) pos = true ->
  is_byte_pxl color = true ->
  exists g', set_at g pos color = inr g' /\
    grid_ok g' /\
    get_width g' = get_width g /\
    get_height g' = get_height g /\
    get_at g' pos = inr color /\
    (forall pos', pos' <> pos ->
       in_grid (get_width g) (get_height g) pos' = true ->
       get_at g' pos' = get_at g pos').
Proof.
  intros Hok Hin Hcolor. simpl in *. rewrite Hin, Hcolor.
  eexists. split; [reflexivity|]. simpl.
  split; [|split; [reflexivity|split; [reflexivity|split]]].
  - intros pos' color'. simpl.
    destruct (decide (pos = pos')) as [<-|NE].
    + rewrite lookup_insert_eq. intros [= <-]. exact Hcolor.
    + rewrite lookup_insert_ne by exact NE. apply Hok.
  - rewrite Hin, lookup_insert_eq. reflexivity.
  - intros pos' NE Hin'. rewrite Hin'.
    rewrite lookup_insert_ne by congruence. reflexivity.
Qed.

#[export] Instance Grid_laws : ImgSurfaceLaws Grid := {|
  surface_ok := grid_ok;
  get_at_ok := Grid_get_at_ok;
  set_at_ok := Grid_set_at_ok
|}.

#[export] Instance Grid_bounds_checked : BoundsChecked Grid.
Proof.
  intros g pos Hout. simpl in *. rewrite Hout. eexists. reflexivity.
Qed.

Lemma new_grid_ok (W H : Z) : grid_ok (new_grid W H).
Proof.
  intros pos color. unfold new_grid. simpl.
  rewrite lookup_empty. discriminate.
Qed.

Lemma raw_wrap_in_grid (g : RawBuffer) (pos : position) :
  in_grid (raw_w g) (raw_h g) pos = true -> raw_wrap g pos = pos.
Proof.
  destruct pos as [x y]. rewrite in_grid_true. intros [Hx Hy].
  unfold raw_wrap. simpl. rewrite !Z.mod_small by lia. reflexivity.
Qed.

Lemma truncate_byte_pxl (color : pxl) :
  is_byte_pxl color = true -> truncate_pxl color = color.
Proof.
  destruct color as [[c0 c1] c2]. unfold is_byte_pxl, is_byte, truncate_pxl.
  rewrite !andb_true_iff, !Z.leb_le. intros [[[? ?] [? ?]] [? ?]].
  rewrite !Z.mod_small by lia. reflexivity.
Qed.

Lemma RawBuffer_get_at_ok (g : RawBuffer) (pos : position) :
  raw_ok g ->
  in_grid (get_width g) (get_height g) pos = true ->
  exists color, get_at g pos = inr color /\ is_byte_pxl color = true.
Proof.
  intros (_ & _ & Hok) _. simpl. eexists. split; [reflexivity|].
  destruct (raw_pixels g !! raw_wrap g pos) as [color|] eqn:E; simpl.
  - apply (Hok _ _ E).
  - reflexivity.
Qed.

Lemma RawBuffer_set_at_ok (g : RawBuffer) (pos : position) (color : pxl) :
  raw_ok g ->
  in_grid (get_width g) (get_height g) pos = true ->
  is_byte_pxl color = true ->
  exists g', set_at g pos color = inr g' /\
    raw_ok g' /\
    get_width g' = get_width g /\
    get_height g' = get_height g /\
    get_at g' pos = inr color /\
    (forall pos', pos' <> pos ->
       in_grid (get_width g) (get_height g) pos' = true ->
       get_at g' pos' = get_at g pos').
Proof.
  intros (HW & HH & Hok) Hin Hcolor. simpl in *.
  eexists. split; [reflexivity|].
  rewrite (raw_wrap_in_grid g pos Hin), (truncate_byte_pxl color Hcolor).
  split; [|split; [reflexivity|split; [reflexivity|split]]].
  - split; [exact HW|]. split; [exact HH|]. intros pos' color'. simpl.
    destruct (decide (pos = pos')) as [<-|NE].
    + rewrite lookup_insert_eq. intros [= <-]. exact Hcolor.
    + rewrite lookup_insert_ne by exact NE. apply Hok.
  - simpl. unfold raw_wrap at 1. simpl.
    change (pos.1 `mod` raw_w g, pos.2 `mod` raw_h g) with (raw_wrap g pos).
    rewrite (raw_wrap_in_grid g pos Hin), lookup_insert_eq. reflexivity.
  - intros pos' NE Hin'. simpl. unfold raw_wrap at 1. simpl.
    change (pos'.1 `mod` raw_w g, pos'.2 `mod` raw_h g)
      with (raw_wrap g pos').
    rewrite (raw_wrap_in_grid g pos' Hin').
    rewrite lookup_insert_ne by congruence. reflexivity.
Qed.

#[export] Instance RawBuffer_laws : ImgSurfaceLaws RawBuffer := {|
  surface_ok := raw_ok;
  get_at_ok := RawBuffer_get_at_ok;
  set_at_ok := RawBuffer_set_at_ok
|}.

Lemma new_raw_ok (W H : Z) : 0 < W -> 0 < H -> raw_ok (new_raw W H).
Proof.
  intros HW HH. split; [exact HW|]. split; [exact HH|].
  intros pos color. unfold new_raw. simpl.
  rewrite lookup_empty. discriminate.
Qed.

(** The players of the demonstration, written as a list of objects and read
    back at [list[Player_Example]]. *)
Lemma players_supported :
  supported (S := Grid) (TList (TObj Player_Example_cls))
    (VList [VObj Player_Example.new; VObj simple_player]).
Proof.
  assert (Hplayer : forall p : Player_Example.t,
             p = Player_Example.new \/ p = simple_player ->
             supported (S := Grid) (TObj Player_Example_cls) (VObj p)).
  { intros p Hp. eexists. apply Player_Example_encodes.
    - destruct Hp as [-> | ->]; simpl; lia.
    - destruct Hp as [-> | ->]; simpl; lia.
    - destruct Hp as [-> | ->]; simpl; lia.
    - destruct Hp as [-> | ->]; simpl;
        repeat (apply Forall_cons_2; [reflexivity|]); apply Forall_nil_2.
    - destruct Hp as [-> | ->]; vm_compute; reflexivity. }
  split.
  - apply Forall_cons_2; [apply Hplayer; left; reflexivity|].
    apply Forall_cons_2; [apply Hplayer; right; reflexivity|].
    apply Forall_nil_2.
  - vm_compute. reflexivity.
Qed.

Lemma players_round_trip :
  supported (S := Grid) (TList (TObj Player_Example_cls))
    (VList [VObj Player_Example.new; VObj simple_player]) /\
  exists size : Z,
    forall self : ImgHandler Grid,
      handler_ok self ->
      next_byte self + size <= capacity self ->
      exists self',
        write_next (VList [VObj Player_Example.new; VObj simple_player]) self
        = Ok tt self' /\
        next_byte self' = next_byte self + size /\
        read_next (TList (TObj Player_Example_cls))
          (seek self' (next_byte self))
        = Ok (VList [VObj Player_Example.new; VObj simple_player]) self'.
Proof.
  split; [exact players_supported|].
  apply (supported_round_trip (TList (TObj Player_Example_cls))
           (VList [VObj Player_Example.new; VObj simple_player])
           players_supported).
Defined.

(** ** Reading leaves the surface alone: the methods *)

Lemma reads_only_ret {S A} (a : A) : reads_only (S := S) (ret a).
Proof. intros self. simpl. auto. Qed.

Lemma reads_only_raise {S A} (e : exn) : reads_only (S := S) (A := A) (raise e).
Proof. intros self. simpl. auto. Qed.

Lemma reads_only_bind {S A B} (m : M S A) (k : A -> M S B) :
  reads_only m -> (forall a, reads_only (k a)) -> reads_only (bind m k).
Proof.
  intros Hm Hk self. unfold bind.
  specialize (Hm self). destruct (m self) as [a self'|e self']; simpl in Hm.
  - destruct (Hk a self') as (E1 & E2 & E3).
    destruct Hm as (F1 & F2 & F3). rewrite E1, E2, E3. auto.
  - exact Hm.
Qed.

Lemma reads_only_for_range {S A} (n : nat) (body : A -> M S A) :
  (forall acc, reads_only (body acc)) ->
  forall acc, reads_only (for_range n body acc).
Proof.
  intros Hbody. induction n as [|n IH]; intros acc; simpl.
  - apply reads_only_ret.
  - apply reads_only_bind; [apply Hbody|exact IH].
Qed.

Section ReadsOnly.
Context {S Obj Cls : Type} {HS : ImgSurface S}
  {HO : ImgSerializable S Obj Cls}.

Lemma reads_only_read_next_byte : reads_only read_next_byte.
Proof.
  intros self. unfold read_next_byte.
  destruct (w self =? 0); [simpl; auto|].
  destruct (get_at _ _); simpl; auto.
Qed.

Lemma reads_only_read_next_bytes {A} (size : Z) (body : A -> Z -> M S A)
    (acc : A) :
  (forall acc b, reads_only (body acc b)) ->
  reads_only (read_next_bytes size body acc).
Proof.
  intros Hbody. unfold read_next_bytes. apply reads_only_for_range.
  intros acc'. apply reads_only_bind; [apply reads_only_read_next_byte|].
  intros b. apply Hbody.
Qed.

Lemma reads_only_read_next_i32 : reads_only read_next_i32.
Proof.
  unfold read_next_i32. apply reads_only_bind.
  - apply reads_only_read_next_bytes. intros; apply reads_only_ret.
  - intros; apply reads_only_ret.
Qed.

Lemma reads_only_read_next_i64 : reads_only read_next_i64.
Proof.
  unfold read_next_i64. apply reads_only_bind.
  - apply reads_only_read_next_bytes. intros; apply reads_only_ret.
  - intros; apply reads_only_ret.
Qed.

Lemma reads_only_read_next_string : reads_only read_next_string.
Proof.
  unfold read_next_string. apply reads_only_bind.
  - apply reads_only_read_next_i64.
  - intros size. apply reads_only_read_next_bytes. intros acc b.
    destruct (chr b); [apply reads_only_raise|apply reads_only_ret].
Qed.

Lemma reads_only_read_next_list_with (read_item : M S (value Obj)) :
  reads_only read_item -> reads_only (read_next_list_with read_item).
Proof.
  intros Hitem. unfold read_next_list_with. apply reads_only_bind.
  - apply reads_only_read_next_i64.
  - intros size. apply reads_only_for_range. intros output.
    apply reads_only_bind; [exact Hitem|].
    intros; apply reads_only_ret.
Qed.

Lemma reads_only_read_next (t : typ Cls) :
  (forall cls, reads_only (img_deserialize cls)) ->
  reads_only (read_next t).
Proof.
  intros Hcls. induction t as [| |inner_typ IH|cls]; simpl.
  - apply reads_only_bind; [apply reads_only_read_next_i64|].
    intros; apply reads_only_ret.
  - apply reads_only_bind; [apply reads_only_read_next_string|].
    intros; apply reads_only_ret.
  - apply reads_only_bind;
      [apply reads_only_read_next_list_with; exact IH|].
    intros; apply reads_only_ret.
  - apply reads_only_bind; [apply Hcls|].
    intros; apply reads_only_ret.
Qed.

End ReadsOnly.

Lemma Player_Example_reads_only {S} {HS : ImgSurface S} :
  reads_only (S := S) Player_Example.img_deserialize.
Proof.
  unfold Player_Example.img_deserialize.
  repeat (apply reads_only_bind;
          [first [apply reads_only_read_next_i32
                 |apply reads_only_read_next_string]|intros ?]).
  apply reads_only_ret.
Qed.

(** ** Bytes consumed by a write *)

Lemma write_next_byte_advances {S} {HS : ImgSurface S} (b : Z)
    (self self' : ImgHandler S) :
  write_next_byte b self = Ok tt self' ->
  next_byte self' = next_byte self + 1.
Proof.
  unfold write_next_byte. destruct (w self =? 0); [discriminate|].
  destruct (get_at _ _); [discriminate|].
  destruct (set_at _ _ _); [discriminate|].
  intros [= <-]. reflexivity.
Qed.

Lemma write_bytes_advances {S} {HS : ImgSurface S} (bs : list Z) :
  forall (self self' : ImgHandler S),
    for_each write_next_byte bs self = Ok tt self' ->
    next_byte self' = next_byte self + len bs.
Proof.
  unfold len. induction bs as [|b bs IH]; intros self self'; simpl.
  - intros [= <-]. lia.
  - unfold bind. destruct (write_next_byte b self) as [[] s1|e s1] eqn:E1;
      [|discriminate].
    intros E2. apply IH in E2. apply write_next_byte_advances in E1. lia.
Qed.

Lemma init_ok {S} {HS : ImgSurface S} {HL : ImgSurfaceLaws S} (surf : S) :
  surface_ok surf -> 0 < get_width surf -> handler_ok (init surf).
Proof.
  intros Hok HW. unfold handler_ok, init. simpl.
  split; [exact Hok|]. split; [reflexivity|]. split; [reflexivity|].
  split; [exact HW|lia].
Qed.

Lemma seek_ok {S} {HS : ImgSurface S} {HL : ImgSurfaceLaws S}
    (self : ImgHandler S) (n : Z) :
  handler_ok self -> 0 <= n -> handler_ok (seek self n).
Proof.
  intros (Hok & EW & EH & HW & _) Hn. unfold handler_ok, seek. simpl.
  split; [exact Hok|]. split; [exact EW|]. split; [exact EH|].
  split; [exact HW|exact Hn].
Qed.

(** * The claims *)

(** ** C1 *)

(** C1 (round-trip law), at the largest 64-bit integer and at an object
    whose 32-bit field is the largest 32-bit integer: on a black 8x8 grid,
    [write_next] of 9223372036854775807 at byte 0 followed by
    [read_next(int)] from byte 0 returns -9223372036854775809, and a
    [Player_Example] written with x = 2147483647 is read back with
    x = -2147483649.  The value read is not the value written. *)
Theorem round_trip_fails_at_largest_integer :
  let self : ImgHandler Grid := init (new_grid 8 8) in
  let big : value Player_Example.t := VInt 9223372036854775807 in
  let player : value Player_Example.t :=
    VObj (Player_Example.mk 2147483647 784 48 [77; 101; 103; 97]) in
  (returned (write_next big self) = Some tt /\
   returned (read_next TInt (seek (handler_after (write_next big self)) 0))
   = Some (VInt (-9223372036854775809) : value Player_Example.t)) /\
  (returned (write_next player self) = Some tt /\
   returned (read_next (TObj Player_Example_cls)
               (seek (handler_after (write_next player self)) 0))
   = Some (VObj (Player_Example.mk (-2147483649) 784 48 [77; 101; 103; 97]))).
Proof. vm_compute. repeat split. Qed.

(** ** C2 *)

(** C2 (signed reinterpretation and integer boundaries): [read_next_i32]
    and [read_next_i64] subtract 2^width as soon as the accumulated value
    reaches 2^(width-1) - 1, a value whose high bit is clear.  Written and
    read back on a black 8x8 grid, the smallest values of both widths come
    back unchanged, but 2147483647 comes back as -2147483649 and
    9223372036854775807 as -9223372036854775809. *)
Theorem largest_integers_read_back_negative :
  let self : ImgHandler Grid := init (new_grid 8 8) in
  let i32 (val : Z) :=
    returned (read_next_i32 (seek (handler_after (write_next_i32 val self)) 0))
  in
  let i64 (val : Z) :=
    returned (read_next_i64 (seek (handler_after (write_next_i64 val self)) 0))
  in
  (Z.testbit 2147483647 31 = false /\
   signed_i32 2147483647 = 2147483647 - 2 ^ 32) /\
  (Z.testbit 9223372036854775807 63 = false /\
   signed_i64 9223372036854775807 = 9223372036854775807 - 2 ^ 64) /\
  i32 2147483647 = Some (-2147483649) /\
  i64 9223372036854775807 = Some (-9223372036854775809) /\
  i32 (-2147483648) = Some (-2147483648) /\
  i64 (-9223372036854775808) = Some (-9223372036854775808).
Proof. vm_compute. repeat split. Qed.

(** ** C3 *)

(** C3 (byte-to-coordinate mapping): with the cursor at [n] on rows of [W]
    pixels, [read_next_byte] returns channel [n mod 3] of the pixel that
    [get_at] gives at x = (n div 3) mod W, y = (n div 3) div W, and
    [write_next_byte] stores its byte in that channel of that pixel and
    hands the pixel to [set_at] at the same position.  The mapping is the
    row-major packing of three bytes per pixel:
    n = 3 * (y * W + x) + channel with 0 <= x < W and 0 <= channel < 3. *)
Theorem byte_to_coordinate_mapping {S} {HS : ImgSurface S}
    (self : ImgHandler S) (b : Z) :
  w self <> 0 ->
  let n := next_byte self in
  let W := w self in
  let pos := (spec_x W n, spec_y W n) in
  read_next_byte self
  = match get_at (surface self) pos with
    | inr color => Ok (pxl_getitem color (spec_channel n)) (advance self 1)
    | inl e => Raise e self
    end /\
  write_next_byte b self
  = match get_at (surface self) pos with
    | inr color =>
        match set_at (surface self) pos
                (pxl_setitem color (spec_channel n) b) with
        | inr surf => Ok tt (advance (mkImgHandler surf n W (h self)) 1)
        | inl e => Raise e self
        end
    | inl e => Raise e self
    end /\
  (0 < W -> 0 <= n ->
   0 <= spec_channel n < 3 /\ 0 <= spec_x W n < W /\ 0 <= spec_y W n /\
   n = 3 * (spec_y W n * W + spec_x W n) + spec_channel n).
Proof.
  intros HW n W pos. split; [|split].
  - unfold read_next_byte. fold n W.
    destruct (Z.eqb_spec W 0) as [|_]; [contradiction|]. reflexivity.
  - unfold write_next_byte. fold n W.
    destruct (Z.eqb_spec W 0) as [|_]; [contradiction|]. reflexivity.
  - intros HW0 Hn. apply spec_coordinate_rowmajor; assumption.
Qed.

Lemma byte_to_coordinate_mapping_witness :
  let self : ImgHandler Grid := seek (init (new_grid 8 8)) 100 in
  w self <> 0 /\
  (spec_x 8 100, spec_y 8 100, spec_channel 100) = (1, 4, 1) /\
  read_next_byte self = Ok 0 (advance self 1).
Proof.
  intros self. split; [vm_compute; discriminate|].
  split; [reflexivity|].
  rewrite (proj1 (byte_to_coordinate_mapping self 0
                    ltac:(vm_compute; discriminate))).
  reflexivity.
Defined.

(** ** C9 *)

(** C9 (generic dispatch): [write_next] writes an integer with
    [write_next_i64] (eight bytes, never four), a string with
    [write_next_string], a list with [write_next_list] and anything else
    with the object's own [img_serialize]; [read_next] reads at [int] with
    [read_next_i64], at [str] with [read_next_string], at a list type with
    [read_next_list] of its item type, and at any other type with the
    class's [img_deserialize]. *)
Theorem generic_dispatch {S Obj Cls} {HS : ImgSurface S}
    {HO : ImgSerializable S Obj Cls} :
  (forall z : Z, write_next (VInt z) = write_next_i64 z) /\
  (forall z (self self' : ImgHandler S),
     write_next (VInt z) self = Ok tt self' ->
     next_byte self' = next_byte self + 8) /\
  (forall s : str, write_next (VStr s) = write_next_string s) /\
  (forall l : list (value Obj), write_next (VList l) = write_next_list l) /\
  (forall o : Obj,
     write_next (VObj o) = write_next_object o /\
     write_next_object o = img_serialize o) /\
  read_next TInt = (z <- read_next_i64 ;; ret (VInt z)) /\
  read_next TStr = (s <- read_next_string ;; ret (VStr s)) /\
  (forall inner_typ : typ Cls,
     read_next (TList inner_typ)
     = (l <- read_next_list inner_typ ;; ret (VList l))) /\
  (forall cls : Cls,
     read_next (TObj cls) = (o <- read_next_object cls ;; ret (VObj o)) /\
     read_next_object cls = img_deserialize cls).
Proof.
  repeat split.
  intros z self self' E. simpl in E. unfold write_next_i64 in E.
  rewrite <- (for_each_fmap
                (fun byte_pos => Z.land (Z.shiftr z ((7 - byte_pos) * 8)) 255)
                (range 8) write_next_byte) in E.
  apply write_bytes_advances in E. exact E.
Qed.

(** ** C10 *)

(** C10 (reads never mutate the surface): [read_next_byte],
    [read_next_bytes] (with a loop body that does not write), [read_next_i32],
    [read_next_i64], [read_next_string] and [read_next_list] leave the
    surface, hence every pixel, exactly as it was, whether they return or
    raise; of the handler only [next_byte] can change.  The classes read by
    [read_next_list] are taken to read only as well. *)
Theorem reads_never_mutate {S Obj Cls} {HS : ImgSurface S}
    {HO : ImgSerializable S Obj Cls} :
  (forall cls : Cls, reads_only (img_deserialize cls)) ->
  reads_only read_next_byte /\
  (forall (A : Type) (size : Z) (body : A -> Z -> M S A) (acc : A),
     (forall acc b, reads_only (body acc b)) ->
     reads_only (read_next_bytes size body acc)) /\
  reads_only read_next_i32 /\
  reads_only read_next_i64 /\
  reads_only read_next_string /\
  (forall inner_typ : typ Cls, reads_only (read_next_list inner_typ)).
Proof.
  intros Hcls.
  split; [apply reads_only_read_next_byte|].
  split; [intros; apply reads_only_read_next_bytes; assumption|].
  split; [apply reads_only_read_next_i32|].
  split; [apply reads_only_read_next_i64|].
  split; [apply reads_only_read_next_string|].
  intros inner_typ. unfold read_next_list.
  apply reads_only_read_next_list_with, reads_only_read_next. exact Hcls.
Qed.

Lemma reads_never_mutate_witness :
  (forall cls : player_class,
     reads_only (S := Grid) (img_deserialize cls)) /\
  reads_only (S := Grid)
    (read_next_list (Obj := Player_Example.t) (TObj Player_Example_cls)).
Proof.
  assert (Hcls : forall cls : player_class,
             reads_only (S := Grid) (img_deserialize cls))
    by (intros cls; apply Player_Example_reads_only).
  split; [exact Hcls|].
  apply (reads_never_mutate (S := Grid) Hcls).
Defined.

(** ** C4 *)

(** C4 as stated fails on a surface without bounds checking: on a 1x1 raw
    buffer (capacity 3 bytes) the fourth [write_next_byte] resolves to
    pixel (0, 1), outside the grid, and does not raise: it returns, and the
    pixel at (0, 0), written before, has changed from (1, 2, 3) to
    (99, 2, 3). *)
Lemma out_of_bounds_not_raised_by_handler :
  let self : ImgHandler RawBuffer := init (new_raw 1 1) in
  let full := handler_after (for_each write_next_byte [1; 2; 3] self) in
  next_byte full = capacity full /\
  in_grid 1 1 (spec_x 1 3, spec_y 1 3) = false /\
  get_at (surface full) (0, 0) = inr (1, 2, 3) /\
  returned (write_next_byte 99 full) = Some tt /\
  get_at (surface (handler_after (write_next_byte 99 full))) (0, 0)
  = inr (99, 2, 3) /\
  returned (read_next_byte full) = Some 1.
Proof. vm_compute. repeat split. Qed.

(** C4, amended (out of bounds is the surface's error): the handler checks
    no bounds itself.  On a surface whose [get_at] raises outside the grid,
    a one-byte read or write with the cursor at or past W*H*3 raises the
    exception of [get_at], before [set_at] is called and with the handler,
    surface and cursor, left as it was; and from a cursor at 0, writing
    exactly W*H*3 bytes succeeds and one more byte raises in that way. *)
Theorem out_of_bounds_on_checked_surface {S} {HS : ImgSurface S}
    {HL : ImgSurfaceLaws S} {HB : BoundsChecked S} (self : ImgHandler S) :
  handler_ok self ->
  (capacity self <= next_byte self ->
   exists e, read_next_byte self = Raise e self /\
             forall b, write_next_byte b self = Raise e self) /\
  (forall bs : list Z,
     next_byte self = 0 ->
     len bs = capacity self ->
     Forall (fun b => is_byte b = true) bs ->
     exists self',
       for_each write_next_byte bs self = Ok tt self' /\
       next_byte self' = capacity self /\
       exists e, forall b, write_next_byte b self' = Raise e self').
Proof.
  assert (Hout : forall hd : ImgHandler S,
             handler_ok hd -> capacity hd <= next_byte hd ->
             exists e, read_next_byte hd = Raise e hd /\
                       forall b, write_next_byte b hd = Raise e hd).
  { intros hd (Hok & EW & EH & HW & Hn) Hcap. unfold capacity in Hcap.
    pose proof (spec_coordinate_outside (w hd) (h hd) (next_byte hd)
                  HW Hcap Hn) as Hgrid.
    rewrite EW, EH in Hgrid.
    destruct (get_at_outside _ _ Hgrid) as [e He]. rewrite <- EW in He.
    unfold spec_x, spec_y, spec_linear_pixel in He.
    exists e. split; [|intros b].
    - unfold read_next_byte.
      destruct (Z.eqb_spec (w hd) 0); [lia|]. rewrite He. reflexivity.
    - unfold write_next_byte.
      destruct (Z.eqb_spec (w hd) 0); [lia|]. rewrite He. reflexivity. }
  intros Hok. split; [apply Hout; exact Hok|].
  intros bs Hn Hlen Hbs.
  destruct (write_bytes_ok bs self Hok Hbs ltac:(lia))
    as (self' & E & Hok' & N' & W' & H' & _).
  exists self'. split; [exact E|]. split; [lia|].
  destruct (Hout self' Hok') as [e [_ He]].
  - unfold capacity. rewrite W', H'. fold (capacity self). lia.
  - exists e. exact He.
Qed.

Lemma out_of_bounds_on_checked_surface_witness :
  let self : ImgHandler Grid := init (new_grid 1 1) in
  handler_ok self /\
  exists self',
    for_each write_next_byte [1; 2; 3] self = Ok tt self' /\
    next_byte self' = capacity self /\
    exists e, forall b, write_next_byte b self' = Raise e self'.
Proof.
  intros self.
  assert (Hok : handler_ok self)
    by (apply init_ok; [apply new_grid_ok|simpl; lia]).
  split; [exact Hok|].
  apply (proj2 (out_of_bounds_on_checked_surface self Hok));
    [reflexivity|reflexivity|].
  repeat constructor.
Defined.

(** ** C5 *)

(** C5 as stated fails on the number of bytes: on a black 8x8 grid the three
    writes leave the cursor at 50, not at 45; the list [1, 2, 3] takes
    8 + 3 * 8 = 32 bytes, not 27. *)
Lemma end_to_end_cursor_is_not_45 :
  let self : ImgHandler Grid := init (new_grid 8 8) in
  let items : list (value Player_Example.t) := [VInt 1; VInt 2; VInt 3] in
  let written :=
    handler_after
      ((write_next_i64 42 ;; write_next_string [104; 105] ;;
        write_next_list items) self) in
  next_byte written = 50 /\ next_byte written <> 8 + 10 + 27.
Proof. vm_compute. split; [reflexivity|discriminate]. Qed.

(** C5, amended (end-to-end scenario): on an 8x8 surface, writing the 64-bit
    integer 42, the string "hi" and the list [1, 2, 3] from byte 0 succeeds
    and leaves the cursor at 8 + 10 + 32 = 50; reading an integer, a string
    and a list of integers from byte 0 of that surface returns 42, "hi" and
    [1, 2, 3], and leaves the reading cursor at 50 too. *)
Theorem end_to_end_scenario {S Obj Cls} {HS : ImgSurface S}
    {HL : ImgSurfaceLaws S} {HO : ImgSerializable S Obj Cls} (surf : S) :
  surface_ok surf -> get_width surf = 8 -> get_height surf = 8 ->
  let hi : str := [104; 105] in
  let items : list (value Obj) := [VInt 1; VInt 2; VInt 3] in
  exists written : ImgHandler S,
    (write_next_i64 42 ;; write_next_string hi ;; write_next_list items)
      (init surf) = Ok tt written /\
    next_byte written = 50 /\
    (a <- read_next_i64 ;;
     b <- read_next_string ;;
     c <- read_next_list (TInt : typ Cls) ;;
     ret (a, b, c)) (init (surface written))
    = Ok (42, hi, items) written.
Proof.
  intros Hok EW EH hi items.
  assert (Hitems : Forall2 (fun item bs =>
                              encodes (write_next item)
                                (read_next (TInt : typ Cls)) item bs)
                     items [bytes_i64 1; bytes_i64 2; bytes_i64 3]).
  { unfold items.
    do 3 (constructor;
          [apply (encodes_fmap _ _ VInt), encodes_i64; lia|]).
    constructor. }
  pose proof (encodes_list (fun item => write_next item) _ _ _ Hitems
                ltac:(vm_compute; reflexivity)) as Hlist.
  assert (Hhi : encodes (write_next_string hi) read_next_string hi
                  (bytes_i64 (len hi) ++ hi)).
  { apply encodes_string; [|vm_compute; reflexivity].
    unfold hi. do 2 (constructor; [reflexivity|]). constructor. }
  pose proof (encodes_bind _ _ _
                (fun a => b <- read_next_string ;;
                          c <- read_next_list (TInt : typ Cls) ;;
                          ret (a, b, c)) 42 (42, hi, items) _ _
                (encodes_i64 42 ltac:(lia))
                (encodes_bind _ _ _
                   (fun b => c <- read_next_list (TInt : typ Cls) ;;
                             ret (42, b, c)) hi (42, hi, items) _ _ Hhi
                   (encodes_fmap _ _ (fun c => (42, hi, c)) _ _ Hlist)))
    as Hall.
  assert (Hinit : handler_ok (init surf)) by (apply init_ok; [exact Hok|lia]).
  destruct (encodes_round_trip _ _ _ _ (init surf) Hall Hinit)
    as (written & E & Hok' & N & R).
  { unfold capacity. simpl. rewrite EW, EH. vm_compute. discriminate. }
  exists written. split; [exact E|]. split; [exact N|].
  destruct Hok' as (_ & EW' & EH' & _).
  unfold init. rewrite <- EW', <- EH'. exact R.
Qed.

Lemma end_to_end_scenario_witness :
  surface_ok (new_grid 8 8) /\
  exists written : ImgHandler Grid,
    (write_next_i64 42 ;; write_next_string [104; 105] ;;
     write_next_list (Obj := Player_Example.t) [VInt 1; VInt 2; VInt 3])
      (init (new_grid 8 8)) = Ok tt written /\
    next_byte written = 50 /\
    (a <- read_next_i64 ;;
     b <- read_next_string ;;
     c <- read_next_list (TInt : typ player_class) ;;
     ret (a, b, c)) (init (surface written))
    = Ok (42, [104; 105], [VInt 1; VInt 2; VInt 3]) written.
Proof.
  split; [apply new_grid_ok|].
  apply (end_to_end_scenario (HL := Grid_laws) (Obj := Player_Example.t)
           (Cls := player_class) (new_grid 8 8) (new_grid_ok 8 8)
           eq_refl eq_refl).
Defined.

(** ** C6 *)

(** C6 (pixel isolation): inside the capacity, [write_next_byte b] returns
    with [next_byte] one further; the pixel at the resolved position is the
    pixel that was there with [b] in the resolved channel, so its other two
    channels are as before, and every other pixel of the grid is as before.
    In particular, writing bytes 0 and 1 of a pixel leaves byte 2 of that
    pixel as it was. *)
Theorem pixel_isolation {S} {HS : ImgSurface S} {HL : ImgSurfaceLaws S}
    (self : ImgHandler S) (b : Z) :
  handler_ok self ->
  next_byte self < capacity self ->
  is_byte b = true ->
  let n := next_byte self in
  let W := w self in
  let pos := (spec_x W n, spec_y W n) in
  (exists (color : pxl) (self' : ImgHandler S),
     get_at (surface self) pos = inr color /\
     write_next_byte b self = Ok tt self' /\
     next_byte self' = n + 1 /\
     get_at (surface self') pos
     = inr (pxl_setitem color (spec_channel n) b) /\
     pxl_getitem (pxl_setitem color (spec_channel n) b) (spec_channel n) = b /\
     (forall j, 0 <= j < 3 -> j <> spec_channel n ->
        pxl_getitem (pxl_setitem color (spec_channel n) b) j
        = pxl_getitem color j) /\
     (forall pos', pos' <> pos -> in_grid W (h self) pos' = true ->
        get_at (surface self') pos' = get_at (surface self) pos')) /\
  (forall b1, is_byte b1 = true ->
     spec_channel n = 0 -> n + 2 < capacity self ->
     exists self'' : ImgHandler S,
       (write_next_byte b ;; write_next_byte b1) self = Ok tt self'' /\
       (spec_x W (n + 2), spec_y W (n + 2), spec_channel (n + 2))
       = (spec_x W n, spec_y W n, 2) /\
       byte_at (surface self'') W (n + 2) = byte_at (surface self) W (n + 2)).
Proof.
  intros Hok Hcap Hb n W pos. split.
  - destruct Hok as (Hsurf & EW & EH & HW & Hn). unfold capacity in Hcap.
    fold n W in EW, HW, Hn, Hcap.
    assert (Hin : in_grid (get_width (surface self))
                    (get_height (surface self)) pos = true).
    { rewrite <- EW, <- EH. apply spec_coordinate_in_grid; lia. }
    destruct (get_at_ok _ _ Hsurf Hin) as (color & Eget & Hcolor).
    pose proof (pxl_setitem_byte color (spec_channel n) b Hcolor Hb) as Hnew.
    destruct (set_at_ok _ _ _ Hsurf Hin Hnew)
      as (s' & Eset & _ & _ & _ & Eget' & Hframe).
    destruct (spec_coordinate_rowmajor W n HW Hn) as (Hc & _).
    exists color. eexists.
    split; [exact Eget|]. split.
    { unfold write_next_byte. fold n W.
      destruct (Z.eqb_spec W 0) as [|_]; [lia|].
      unfold pos, spec_x, spec_y, spec_linear_pixel, spec_channel
        in Eget, Eset.
      rewrite Eget, Eset. reflexivity. }
    simpl. split; [reflexivity|]. split; [exact Eget'|].
    split; [apply pxl_get_set_same|]. split.
    + intros j Hj Hne. apply pxl_get_set_other; auto.
    + intros pos' Hne Hin'. apply Hframe; [exact Hne|].
      rewrite <- EW, <- EH. exact Hin'.
  - intros b1 Hb1 Hch Hcap2.
    assert (Hbs : Forall (fun b => is_byte b = true) [b; b1])
      by (constructor; [exact Hb|constructor; [exact Hb1|constructor]]).
    destruct (write_bytes_ok [b; b1] self Hok Hbs)
      as (self'' & E & _ & _ & _ & _ & _ & Hframe).
    { unfold len. simpl. fold n. lia. }
    assert (Hn : 0 <= n) by (destruct Hok as (_ & _ & _ & _ & ?); auto).
    exists self''. split; [|split].
    + simpl in E. unfold bind in *.
      destruct (write_next_byte b self) as [[] s1|e s1]; [|discriminate].
      destruct (write_next_byte b1 s1) as [[] s2|e s2]; [|discriminate].
      exact E.
    + unfold spec_channel in Hch.
      pose proof (Z.div_mod n 3 ltac:(lia)) as Hdm.
      assert (Hdiv : (n + 2) / 3 = n / 3)
        by (symmetry; apply Z.div_unique with (r := 2); lia).
      assert (Hmod : (n + 2) mod 3 = 2)
        by (symmetry; apply Z.mod_unique with (q := n / 3); lia).
      unfold spec_x, spec_y, spec_linear_pixel, spec_channel.
      rewrite Hdiv, Hmod. reflexivity.
    + apply Hframe; fold n; unfold len; simpl; lia.
Qed.

Lemma pixel_isolation_witness :
  let self : ImgHandler Grid := seek (init (new_grid 8 8)) 3 in
  (handler_ok self /\ next_byte self < capacity self /\
   is_byte 200 = true) /\
  exists self'' : ImgHandler Grid,
    (write_next_byte 200 ;; write_next_byte 7) self = Ok tt self'' /\
    (spec_x 8 5, spec_y 8 5, spec_channel 5) = (spec_x 8 3, spec_y 8 3, 2) /\
    byte_at (surface self'') 8 5 = byte_at (surface self) 8 5.
Proof.
  intros self.
  assert (Hok : handler_ok self).
  { apply seek_ok; [|lia]. apply init_ok; [apply new_grid_ok|simpl; lia]. }
  split; [split; [exact Hok|split; reflexivity]|].
  apply (proj2 (pixel_isolation self 200 Hok eq_refl eq_refl) 7);
    reflexivity.
Defined.

(** ** C7 *)

(** C7 as stated fails where it asks for an EncodingRange error: on a raw
    buffer that keeps the low 8 bits of a channel, [write_next_string] of
    the one-character string of code point 256 returns without raising, and
    the string read back is the one-character string of code point 0.  On
    the grid that checks its channels the same call does raise, but the
    exception is the surface's [ValueError], raised once the 8 bytes of the
    length are written. *)
Lemma code_point_256_not_rejected :
  let raw : ImgHandler RawBuffer := init (new_raw 8 8) in
  let grid : ImgHandler Grid := init (new_grid 8 8) in
  (returned (write_next_string [256] raw) = Some tt /\
   returned (read_next_string
               (seek (handler_after (write_next_string [256] raw)) 0))
   = Some [0]) /\
  (exists written,
     write_next_string [256] grid = Raise ValueError written /\
     next_byte written = 8 /\
     byte_at (surface written) 8 7 = Some 1).
Proof.
  split.
  - vm_compute. split; reflexivity.
  - eexists. vm_compute. repeat split.
Qed.

(** C7, amended (strings of 8-bit code points): [write_next_string] checks
    no code point: it writes the length with [write_next_i64] and hands
    every code point as it is to [write_next_byte]; there is no
    EncodingRange error, and what becomes of a code point above 255 is up
    to the surface.  A string whose code points are all in 0..255, code
    point 255 and the empty string included, that fits in what is left of
    the surface and is shorter than 2^63 - 1, is written without error, and
    [read_next_string] from the same byte returns it exactly. *)
Theorem string_round_trip {S} {HS : ImgSurface S} {HL : ImgSurfaceLaws S}
    (self : ImgHandler S) (val : str) :
  handler_ok self ->
  Forall (fun b => is_byte b = true) val ->
  len val < I64MAX ->
  next_byte self + 8 + len val <= capacity self ->
  (forall (s : str) (hd : ImgHandler S),
     write_next_string s hd
     = (write_next_i64 (len s) ;; for_each write_next_byte s) hd) /\
  exists self' : ImgHandler S,
    write_next_string val self = Ok tt self' /\
    next_byte self' = next_byte self + 8 + len val /\
    read_next_string (seek self' (next_byte self)) = Ok val self'.
Proof.
  intros Hok Hval Hlen Hcap. split; [reflexivity|].
  pose proof (encodes_string val Hval Hlen) as Henc.
  assert (Hbs : len (bytes_i64 (len val) ++ val) = 8 + len val)
    by (rewrite len_app; reflexivity).
  destruct (encodes_round_trip _ _ _ _ self Henc Hok ltac:(lia))
    as (self' & E & _ & N & R).
  exists self'. split; [exact E|]. split; [lia|exact R].
Qed.

Lemma string_round_trip_witness :
  let self : ImgHandler Grid := seek (init (new_grid 8 8)) 20 in
  (handler_ok self /\
   Forall (fun b => is_byte b = true) [104; 255; 0] /\
   len [104; 255; 0] < I64MAX) /\
  exists self' : ImgHandler Grid,
    write_next_string [104; 255; 0] self = Ok tt self' /\
    next_byte self' = next_byte self + 8 + len [104; 255; 0] /\
    read_next_string (seek self' (next_byte self)) = Ok [104; 255; 0] self'.
Proof.
  intros self.
  assert (Hok : handler_ok self).
  { apply seek_ok; [|lia]. apply init_ok; [apply new_grid_ok|simpl; lia]. }
  assert (Hval : Forall (fun b => is_byte b = true) [104; 255; 0])
    by (do 3 (constructor; [reflexivity|]); constructor).
  split; [split; [exact Hok|split; [exact Hval|reflexivity]]|].
  apply (proj2 (string_round_trip self [104; 255; 0] Hok Hval eq_refl
                  ltac:(vm_compute; discriminate))).
Defined.

(** ** C8 *)

(** C8 (list ordering), at a list that holds the largest 64-bit integer: on
    a black 8x8 grid, [write_next_list] of
    [9223372036854775807, 1, 2] followed by [read_next_list(int)] from the
    same byte returns three items in the order written, but the first one
    is -9223372036854775809: the list read is not the list written. *)
Theorem list_with_largest_integer_differs :
  let self : ImgHandler Grid := init (new_grid 8 8) in
  let items : list (value Player_Example.t) :=
    [VInt 9223372036854775807; VInt 1; VInt 2] in
  let written := handler_after (write_next_list items self) in
  returned (write_next_list items self) = Some tt /\
  returned (read_next_list (TInt : typ player_class) (seek written 0))
  = Some [VInt (-9223372036854775809); VInt 1; VInt 2] /\
  [VInt (-9223372036854775809); VInt 1; VInt 2] <> items.
Proof.
  vm_compute. split; [reflexivity|]. split; [reflexivity|discriminate].
Qed.

(** * Further properties of the handler *)

(** ** Helpers *)

Lemma pxl_getitem_byte (color : pxl) (i : Z) :
  is_byte_pxl color = true -> is_byte (pxl_getitem color i) = true.
Proof.
  destruct color as [[c0 c1] c2]. unfold is_byte_pxl, pxl_getitem.
  rewrite !andb_true_iff. intros [[E0 E1] E2].
  destruct (i =? 0); [exact E0|]. destruct (i =? 1); [exact E1|exact E2].
Qed.

(** Inside the capacity the surface holds a byte at every index. *)
Lemma stream_exists {S} {HS : ImgSurface S} {HL : ImgSurfaceLaws S}
    (s : S) (W : Z) (k : nat) : forall n : Z,
  surface_ok s -> W = get_width s -> 0 < W -> 0 <= n ->
  n + Z.of_nat k <= 3 * W * get_height s ->
  exists bs : list Z,
    length bs = k /\ Forall (fun b => is_byte b = true) bs /\ holds s W n bs.
Proof.
  induction k as [|k IH]; intros n Hok EW HW Hn Hcap.
  - exists []. split; [reflexivity|]. split; [constructor|].
    intros i b Hi. rewrite lookup_nil in Hi. discriminate.
  - destruct (IH (n + 1) Hok EW HW ltac:(lia) ltac:(lia))
      as (bs & Hlen & Hbs & Hh).
    assert (Hin : in_grid (get_width s) (get_height s)
                    (spec_x W n, spec_y W n) = true).
    { rewrite <- EW. apply spec_coordinate_in_grid; lia. }
    destruct (get_at_ok _ _ Hok Hin) as (color & Eget & Hcolor).
    exists (pxl_getitem color (spec_channel n) :: bs).
    split; [simpl; lia|]. split.
    + constructor; [apply pxl_getitem_byte; exact Hcolor|exact Hbs].
    + intros [|i] b Hi; simpl in Hi.
      * injection Hi as <-. rewrite Z.add_0_r. unfold byte_at.
        rewrite Eget. reflexivity.
      * replace (n + Z.of_nat (Datatypes.S i)) with (n + 1 + Z.of_nat i)
          by lia.
        apply Hh. exact Hi.
Qed.

Lemma handler_stream {S} {HS : ImgSurface S} {HL : ImgSurfaceLaws S}
    (self : ImgHandler S) (k : nat) :
  handler_ok self ->
  next_byte self + Z.of_nat k <= capacity self ->
  exists bs : list Z,
    length bs = k /\ Forall (fun b => is_byte b = true) bs /\
    holds (surface self) (w self) (next_byte self) bs.
Proof.
  intros (Hok & EW & EH & HW & Hn) Hcap. unfold capacity in Hcap.
  apply stream_exists; auto. rewrite <- EH. exact Hcap.
Qed.

(** The unsigned value of a row of bytes. *)
Lemma fold_shift_in_bound (bs : list Z) : forall (acc k : Z),
  Forall (fun b => is_byte b = true) bs ->
  0 <= k -> 0 <= acc < 2 ^ k ->
  0 <= fold_left shift_in bs acc < 2 ^ (k + 8 * len bs).
Proof.
  unfold len. induction bs as [|b bs IH]; intros acc k Hbs Hk Hacc.
  - simpl. rewrite Z.mul_0_r, Z.add_0_r. exact Hacc.
  - inversion Hbs as [|? ? Hb Hbs']; subst. simpl fold_left.
    replace (k + 8 * Z.of_nat (length (b :: bs)))
      with ((k + 8) + 8 * Z.of_nat (length bs)) by (simpl length; lia).
    apply IH; [exact Hbs'|lia|].
    unfold shift_in. rewrite Z.shiftl_mul_pow2 by lia.
    unfold is_byte in Hb. apply andb_true_iff in Hb.
    rewrite !Z.leb_le in Hb. rewrite Z.pow_add_r by lia.
    change (2 ^ 8) with 256. lia.
Qed.

Lemma signed_i32_range (u : Z) :
  0 <= u < 2 ^ 32 ->
  - 2 ^ 31 - 1 <= signed_i32 u <= 2 ^ 31 - 2 /\
  signed_i32 u mod 2 ^ 32 = u.
Proof.
  intros Hu. unfold signed_i32, I32MAX, U32MAX.
  destruct (Z.geb_spec u 2147483647).
  - split; [lia|].
    symmetry. apply Z.mod_unique with (q := -1); lia.
  - split; [lia|]. rewrite Z.mul_0_l, Z.sub_0_r. apply Z.mod_small. lia.
Qed.

Lemma signed_i64_range (u : Z) :
  0 <= u < 2 ^ 64 ->
  - 2 ^ 63 - 1 <= signed_i64 u <= 2 ^ 63 - 2 /\
  signed_i64 u mod 2 ^ 64 = u.
Proof.
  intros Hu. unfold signed_i64, I64MAX, U64MAX.
  destruct (Z.geb_spec u 9223372036854775807).
  - split; [lia|].
    symmetry. apply Z.mod_unique with (q := -1); lia.
  - split; [lia|]. rewrite Z.mul_0_l, Z.sub_0_r. apply Z.mod_small. lia.
Qed.

(** A value of the window comes back as itself. *)
Lemma signed_i32_window (val : Z) :
  signed_i32 (val mod 2 ^ 32) = val <-> - 2 ^ 31 - 1 <= val <= 2 ^ 31 - 2.
Proof.
  pose proof (Z.mod_pos_bound val (2 ^ 32) ltac:(lia)) as Hu.
  destruct (signed_i32_range _ Hu) as [Hr Hm]. split.
  - intros E. rewrite E in Hr. exact Hr.
  - intros Hval.
    pose proof (Z.div_mod (signed_i32 (val mod 2 ^ 32)) (2 ^ 32) ltac:(lia)).
    pose proof (Z.div_mod val (2 ^ 32) ltac:(lia)).
    lia.
Qed.

Lemma signed_i64_window (val : Z) :
  signed_i64 (val mod 2 ^ 64) = val <-> - 2 ^ 63 - 1 <= val <= 2 ^ 63 - 2.
Proof.
  pose proof (Z.mod_pos_bound val (2 ^ 64) ltac:(lia)) as Hu.
  destruct (signed_i64_range _ Hu) as [Hr Hm]. split.
  - intros E. rewrite E in Hr. exact Hr.
  - intros Hval.
    pose proof (Z.div_mod (signed_i64 (val mod 2 ^ 64)) (2 ^ 64) ltac:(lia)).
    pose proof (Z.div_mod val (2 ^ 64) ltac:(lia)).
    lia.
Qed.

Lemma byte_of_mod (val k m : Z) :
  0 <= k -> k + 8 <= m ->
  Z.land (Z.shiftr (val mod 2 ^ m) k) 255 = Z.land (Z.shiftr val k) 255.
Proof.
  intros Hk Hm. apply Z.bits_inj'. intros i Hi.
  rewrite !Z.land_spec, !Z.shiftr_spec by lia.
  change 255 with (Z.ones 8). destruct (Z.ltb_spec i 8).
  - rewrite Z.mod_pow2_bits_low by lia. reflexivity.
  - rewrite Z.ones_spec_high by lia. rewrite !andb_false_r. reflexivity.
Qed.

Lemma bytes_i32_mod (val : Z) : bytes_i32 (val mod 2 ^ 32) = bytes_i32 val.
Proof.
  unfold bytes_i32. change (range 4) with [0; 1; 2; 3].
  cbn [fmap list_fmap].
  rewrite !(byte_of_mod val _ 32) by lia. reflexivity.
Qed.

Lemma bytes_i64_mod (val : Z) : bytes_i64 (val mod 2 ^ 64) = bytes_i64 val.
Proof.
  unfold bytes_i64. change (range 8) with [0; 1; 2; 3; 4; 5; 6; 7].
  cbn [fmap list_fmap].
  rewrite !(byte_of_mod val _ 64) by lia. reflexivity.
Qed.

Lemma write_next_i32_bytes {S} {HS : ImgSurface S} (val : Z)
    (self : ImgHandler S) :
  write_next_i32 val self = for_each write_next_byte (bytes_i32 val) self.
Proof.
  unfold write_next_i32, bytes_i32. rewrite for_each_fmap. reflexivity.
Qed.

Lemma write_next_i64_bytes {S} {HS : ImgSurface S} (val : Z)
    (self : ImgHandler S) :
  write_next_i64 val self = for_each write_next_byte (bytes_i64 val) self.
Proof.
  unfold write_next_i64, bytes_i64. rewrite for_each_fmap. reflexivity.
Qed.

Lemma write_next_string_bytes {S} {HS : ImgSurface S} (val : str)
    (self : ImgHandler S) :
  write_next_string val self
  = for_each write_next_byte (bytes_i64 (len val) ++ val) self.
Proof.
  rewrite for_each_app. unfold write_next_string, bind.
  rewrite write_next_i64_bytes. reflexivity.
Qed.

(** ** X1, X2: what an integer comes back as *)

(** X1 ([write_next_i32] then [read_next_i32]): with four bytes left, any
    integer is written without error, and what is read back from the same
    byte is the integer of [-2^31 - 1, 2^31 - 2] that differs from it by a
    multiple of 2^32; so the integer itself comes back exactly when it lies
    in [-2^31 - 1, 2^31 - 2]. *)
Theorem i32_write_read {S} {HS : ImgSurface S} {HL : ImgSurfaceLaws S}
    (self : ImgHandler S) (val : Z) :
  handler_ok self ->
  next_byte self + 4 <= capacity self ->
  exists (self' : ImgHandler S) (r : Z),
    write_next_i32 val self = Ok tt self' /\
    next_byte self' = next_byte self + 4 /\
    read_next_i32 (seek self' (next_byte self)) = Ok r self' /\
    r mod 2 ^ 32 = val mod 2 ^ 32 /\
    - 2 ^ 31 - 1 <= r <= 2 ^ 31 - 2 /\
    (r = val <-> - 2 ^ 31 - 1 <= val <= 2 ^ 31 - 2).
Proof.
  intros Hok Hcap.
  destruct (encodes_round_trip _ _ _ _ self (encodes_i32_mod val) Hok Hcap)
    as (self' & E & _ & N & R).
  pose proof (Z.mod_pos_bound val (2 ^ 32) ltac:(lia)) as Hu.
  destruct (signed_i32_range _ Hu) as [Hr Hm].
  exists self', (signed_i32 (val mod 2 ^ 32)).
  split; [exact E|]. split; [exact N|]. split; [exact R|].
  split; [exact Hm|]. split; [exact Hr|]. apply signed_i32_window.
Qed.

Lemma i32_write_read_witness :
  let self : ImgHandler Grid := seek (init (new_grid 8 8)) 7 in
  (handler_ok self /\ next_byte self + 4 <= capacity self) /\
  exists (self' : ImgHandler Grid) (r : Z),
    write_next_i32 (-2147483649) self = Ok tt self' /\
    next_byte self' = next_byte self + 4 /\
    read_next_i32 (seek self' (next_byte self)) = Ok r self' /\
    r mod 2 ^ 32 = (-2147483649) mod 2 ^ 32 /\
    - 2 ^ 31 - 1 <= r <= 2 ^ 31 - 2 /\
    (r = -2147483649 <-> - 2 ^ 31 - 1 <= -2147483649 <= 2 ^ 31 - 2).
Proof.
  intros self.
  assert (Hok : handler_ok self).
  { apply seek_ok; [|lia]. apply init_ok; [apply new_grid_ok|simpl; lia]. }
  assert (Hcap : next_byte self + 4 <= capacity self)
    by (vm_compute; discriminate).
  split; [split; [exact Hok|exact Hcap]|].
  apply (i32_write_read self (-2147483649) Hok Hcap).
Defined.

(** X2 ([write_next_i64] then [read_next_i64]): with eight bytes left, any
    integer is written without error, and what is read back from the same
    byte is the integer of [-2^63 - 1, 2^63 - 2] that differs from it by a
    multiple of 2^64; so the integer itself comes back exactly when it lies
    in [-2^63 - 1, 2^63 - 2]. *)
Theorem i64_write_read {S} {HS : ImgSurface S} {HL : ImgSurfaceLaws S}
    (self : ImgHandler S) (val : Z) :
  handler_ok self ->
  next_byte self + 8 <= capacity self ->
  exists (self' : ImgHandler S) (r : Z),
    write_next_i64 val self = Ok tt self' /\
    next_byte self' = next_byte self + 8 /\
    read_next_i64 (seek self' (next_byte self)) = Ok r self' /\
    r mod 2 ^ 64 = val mod 2 ^ 64 /\
    - 2 ^ 63 - 1 <= r <= 2 ^ 63 - 2 /\
    (r = val <-> - 2 ^ 63 - 1 <= val <= 2 ^ 63 - 2).
Proof.
  intros Hok Hcap.
  destruct (encodes_round_trip _ _ _ _ self (encodes_i64_mod val) Hok Hcap)
    as (self' & E & _ & N & R).
  pose proof (Z.mod_pos_bound val (2 ^ 64) ltac:(lia)) as Hu.
  destruct (signed_i64_range _ Hu) as [Hr Hm].
  exists self', (signed_i64 (val mod 2 ^ 64)).
  split; [exact E|]. split; [exact N|]. split; [exact R|].
  split; [exact Hm|]. split; [exact Hr|]. apply signed_i64_window.
Qed.

Lemma i64_write_read_witness :
  let self : ImgHandler Grid := init (new_grid 8 8) in
  (handler_ok self /\ next_byte self + 8 <= capacity self) /\
  exists (self' : ImgHandler Grid) (r : Z),
    write_next_i64 (2 ^ 64 + 5) self = Ok tt self' /\
    next_byte self' = next_byte self + 8 /\
    read_next_i64 (seek self' (next_byte self)) = Ok r self' /\
    r mod 2 ^ 64 = (2 ^ 64 + 5) mod 2 ^ 64 /\
    - 2 ^ 63 - 1 <= r <= 2 ^ 63 - 2 /\
    (r = 2 ^ 64 + 5 <-> - 2 ^ 63 - 1 <= 2 ^ 64 + 5 <= 2 ^ 63 - 2).
Proof.
  intros self.
  assert (Hok : handler_ok self)
    by (apply init_ok; [apply new_grid_ok|simpl; lia]).
  assert (Hcap : next_byte self + 8 <= capacity self)
    by (vm_compute; discriminate).
  split; [split; [exact Hok|exact Hcap]|].
  apply (i64_write_read self (2 ^ 64 + 5) Hok Hcap).
Defined.

(** ** X3: no range check on the integers written *)

(** X3 ([write_next_i32], [write_next_i64]): the integer written is not
    checked against its width: on any surface, two integers that differ by
    a multiple of 2^32 (of 2^64) leave the same outcome, the same bytes in
    the same pixels or the same exception. *)
Theorem write_int_truncates {S} {HS : ImgSurface S} (val k : Z)
    (self : ImgHandler S) :
  write_next_i32 (val + k * 2 ^ 32) self = write_next_i32 val self /\
  write_next_i64 (val + k * 2 ^ 64) self = write_next_i64 val self.
Proof.
  split.
  - rewrite !write_next_i32_bytes.
    rewrite <- (bytes_i32_mod (val + k * 2 ^ 32)), <- (bytes_i32_mod val).
    rewrite Z.mod_add by lia. reflexivity.
  - rewrite !write_next_i64_bytes.
    rewrite <- (bytes_i64_mod (val + k * 2 ^ 64)), <- (bytes_i64_mod val).
    rewrite Z.mod_add by lia. reflexivity.
Qed.

(** ** X4: bytes consumed by a call that returns *)

Lemma read_next_byte_returns {S} {HS : ImgSurface S} (self self' : ImgHandler S)
    (b : Z) :
  read_next_byte self = Ok b self' -> self' = advance self 1.
Proof.
  unfold read_next_byte. destruct (w self =? 0); [discriminate|].
  destruct (get_at _ _); [discriminate|]. intros [= _ <-]. reflexivity.
Qed.

Lemma read_loop_returns {S} {HS : ImgSurface S} {A} (body : A -> Z -> M S A)
    (n : nat) :
  (forall acc b hd r hd', body acc b hd = Ok r hd' -> hd' = hd) ->
  forall (acc : A) (self : ImgHandler S) (r : A) (self' : ImgHandler S),
    for_range n (fun acc => byte <- read_next_byte ;; body acc byte) acc self
    = Ok r self' ->
    self' = advance self (Z.of_nat n).
Proof.
  intros Hbody. induction n as [|n IH]; intros acc self r self'.
  - simpl. intros [= _ <-]. rewrite advance_0. reflexivity.
  - simpl for_range. unfold bind at 1. unfold bind at 1.
    destruct (read_next_byte self) as [b s1|e s1] eqn:E1; [|discriminate].
    apply read_next_byte_returns in E1. subst s1.
    destruct (body acc b (advance self 1)) as [acc' s2|e s2] eqn:E2;
      [|discriminate].
    apply Hbody in E2. subst s2. intros E3. apply IH in E3. subst self'.
    rewrite advance_advance. f_equal. lia.
Qed.

Lemma read_chars_length {S} {HS : ImgSurface S} (n : nat) :
  forall (acc : str) (self : ImgHandler S) (r : str) (self' : ImgHandler S),
    for_range n
      (fun acc => byte <- read_next_byte ;;
                  match chr byte with
                  | inl e => raise e
                  | inr char => ret (acc ++ [char])
                  end) acc self
    = Ok r self' ->
    length r = (length acc + n)%nat.
Proof.
  induction n as [|n IH]; intros acc self r self'.
  - simpl. intros [= <- _]. lia.
  - simpl for_range. unfold bind at 1. unfold bind at 1.
    destruct (read_next_byte self) as [b s1|e s1]; [|discriminate].
    destruct (chr b) as [e|char]; [discriminate|].
    unfold ret at 1. intros E. apply IH in E.
    rewrite length_app in E. simpl in E. lia.
Qed.

(** X4 (bytes consumed): on any surface, a call that returns has moved the
    cursor by the size of what it handled and by nothing else:
    [write_next_i32] and [read_next_i32] by 4, [write_next_i64] and
    [read_next_i64] by 8, [write_next_string] by 8 plus the length of the
    string written, and [read_next_string] by 8 plus the length of the
    string it returns. *)
Theorem bytes_consumed {S} {HS : ImgSurface S} :
  (forall val (self self' : ImgHandler S),
     write_next_i32 val self = Ok tt self' ->
     next_byte self' = next_byte self + 4) /\
  (forall val (self self' : ImgHandler S),
     write_next_i64 val self = Ok tt self' ->
     next_byte self' = next_byte self + 8) /\
  (forall (val : str) (self self' : ImgHandler S),
     write_next_string val self = Ok tt self' ->
     next_byte self' = next_byte self + 8 + len val) /\
  (forall r (self self' : ImgHandler S),
     read_next_i32 self = Ok r self' -> self' = advance self 4) /\
  (forall r (self self' : ImgHandler S),
     read_next_i64 self = Ok r self' -> self' = advance self 8) /\
  (forall (r : str) (self self' : ImgHandler S),
     read_next_string self = Ok r self' ->
     self' = advance self (8 + len r)).
Proof.
  assert (Hpure : forall (acc b : Z) (hd : ImgHandler S) r hd',
             ret (S := S) (Z.shiftl acc 8 + b) hd = Ok r hd' -> hd' = hd)
    by (intros acc b hd r hd' [= _ <-]; reflexivity).
  assert (H64 : forall r (self self' : ImgHandler S),
             read_next_i64 self = Ok r self' -> self' = advance self 8).
  { intros r self self'. unfold read_next_i64, read_next_bytes, bind at 1.
    destruct (for_range _ _ _ self) as [u s1|e s1] eqn:E; [|discriminate].
    apply (read_loop_returns _ _ Hpure) in E. subst s1.
    intros [= _ <-]. reflexivity. }
  split; [|split; [|split; [|split; [|split]]]].
  - intros val self self' E. rewrite write_next_i32_bytes in E.
    apply write_bytes_advances in E. exact E.
  - intros val self self' E. rewrite write_next_i64_bytes in E.
    apply write_bytes_advances in E. exact E.
  - intros val self self' E. rewrite write_next_string_bytes in E.
    apply write_bytes_advances in E. rewrite len_app in E.
    change (len (bytes_i64 (len val))) with 8 in E. lia.
  - intros r self self'. unfold read_next_i32, read_next_bytes, bind at 1.
    destruct (for_range _ _ _ self) as [u s1|e s1] eqn:E; [|discriminate].
    apply (read_loop_returns _ _ Hpure) in E. subst s1.
    intros [= _ <-]. reflexivity.
  - exact H64.
  - intros r self self'. unfold read_next_string, bind at 1.
    destruct (read_next_i64 self) as [size s1|e s1] eqn:E1; [|discriminate].
    apply H64 in E1. subst s1. unfold read_next_bytes. intros E2.
    pose proof (read_chars_length _ _ _ _ _ E2) as Hlen.
    apply read_loop_returns in E2.
    + subst self'. rewrite advance_advance. f_equal.
      unfold len. simpl in Hlen. lia.
    + intros acc b hd r' hd'. destruct (chr b); [discriminate|].
      intros [= _ <-]. reflexivity.
Qed.

(** ** X5: the cursor never moves back *)

Lemma moves_forward_ret {S A} (a : A) : moves_forward (S := S) (ret a).
Proof. intros self. simpl. split; [lia|auto]. Qed.

Lemma moves_forward_raise {S A} (e : exn) :
  moves_forward (S := S) (A := A) (raise e).
Proof. intros self. simpl. split; [lia|auto]. Qed.

Lemma moves_forward_bind {S A B} (m : M S A) (k : A -> M S B) :
  moves_forward m -> (forall a, moves_forward (k a)) ->
  moves_forward (bind m k).
Proof.
  intros Hm Hk self. unfold bind.
  specialize (Hm self). destruct (m self) as [a self'|e self']; simpl in Hm.
  - destruct (Hk a self') as (E1 & E2 & E3).
    destruct Hm as (F1 & F2 & F3). rewrite E2, E3. split; [lia|auto].
  - exact Hm.
Qed.

Lemma moves_forward_for_each {S A} (body : A -> M S unit) (l : list A) :
  Forall (fun a => moves_forward (body a)) l ->
  moves_forward (for_each body l).
Proof.
  induction 1 as [|a l Ha _ IH]; simpl.
  - apply moves_forward_ret.
  - apply moves_forward_bind; [exact Ha|intros _; exact IH].
Qed.

Lemma moves_forward_for_range {S A} (n : nat) (body : A -> M S A) :
  (forall acc, moves_forward (body acc)) ->
  forall acc, moves_forward (for_range n body acc).
Proof.
  intros Hbody. induction n as [|n IH]; intros acc; simpl.
  - apply moves_forward_ret.
  - apply moves_forward_bind; [apply Hbody|exact IH].
Qed.

(** Induction on a value and, for a list, on its items. *)
Lemma value_nested_ind {Obj} (P : value Obj -> Prop) :
  (forall z, P (VInt z)) ->
  (forall s, P (VStr s)) ->
  (forall l, Forall P l -> P (VList l)) ->
  (forall o, P (VObj o)) ->
  forall val, P val.
Proof.
  intros HInt HStr HList HObj.
  fix IH 1. intros [z|s|l|o].
  - apply HInt.
  - apply HStr.
  - apply HList. induction l as [|item l IHl].
    + constructor.
    + constructor; [apply IH|exact IHl].
  - apply HObj.
Qed.

Section MovesForward.
Context {S Obj Cls : Type} {HS : ImgSurface S}
  {HO : ImgSerializable S Obj Cls}.

Lemma moves_forward_write_next_byte (b : Z) :
  moves_forward (write_next_byte b).
Proof.
  intros self. unfold write_next_byte.
  destruct (w self =? 0); [simpl; split; [lia|auto]|].
  destruct (get_at _ _); [simpl; split; [lia|auto]|].
  destruct (set_at _ _ _); simpl; split; try lia; auto.
Qed.

Lemma moves_forward_read_next_byte : moves_forward read_next_byte.
Proof.
  intros self. unfold read_next_byte.
  destruct (w self =? 0); [simpl; split; [lia|auto]|].
  destruct (get_at _ _); simpl; split; try lia; auto.
Qed.

Lemma moves_forward_write_bytes {A} (f : A -> Z) (l : list A) :
  moves_forward (for_each (fun a => write_next_byte (f a)) l).
Proof.
  apply moves_forward_for_each, Forall_forall.
  intros a _. apply moves_forward_write_next_byte.
Qed.

Lemma moves_forward_write_next_i64 (val : Z) :
  moves_forward (write_next_i64 val).
Proof. apply moves_forward_write_bytes. Qed.

Lemma moves_forward_write_next_string (val : str) :
  moves_forward (write_next_string val).
Proof.
  apply moves_forward_bind; [apply moves_forward_write_next_i64|].
  intros _. apply (moves_forward_write_bytes ord).
Qed.

Lemma moves_forward_read_next_bytes {A} (size : Z) (body : A -> Z -> M S A)
    (acc : A) :
  (forall acc b, moves_forward (body acc b)) ->
  moves_forward (read_next_bytes size body acc).
Proof.
  intros Hbody. apply moves_forward_for_range. intros acc'.
  apply moves_forward_bind; [apply moves_forward_read_next_byte|].
  intros b. apply Hbody.
Qed.

Lemma moves_forward_read_next_i64 : moves_forward read_next_i64.
Proof.
  apply moves_forward_bind.
  - apply moves_forward_read_next_bytes. intros; apply moves_forward_ret.
  - intros; apply moves_forward_ret.
Qed.

Lemma moves_forward_read_next_string : moves_forward read_next_string.
Proof.
  apply moves_forward_bind; [apply moves_forward_read_next_i64|].
  intros size. apply moves_forward_read_next_bytes. intros acc b.
  destruct (chr b); [apply moves_forward_raise|apply moves_forward_ret].
Qed.

Lemma moves_forward_read_next_list_with (read_item : M S (value Obj)) :
  moves_forward read_item -> moves_forward (read_next_list_with read_item).
Proof.
  intros Hitem.
  apply moves_forward_bind; [apply moves_forward_read_next_i64|].
  intros size. apply moves_forward_for_range. intros output.
  apply moves_forward_bind; [exact Hitem|intros; apply moves_forward_ret].
Qed.

Lemma moves_forward_write_next (val : value Obj) :
  (forall o : Obj, moves_forward (img_serialize o)) ->
  moves_forward (write_next val).
Proof.
  intros Hobj. induction val as [z|s|l IH|o] using value_nested_ind.
  - apply moves_forward_write_next_i64.
  - apply moves_forward_write_next_string.
  - change (write_next (VList l))
      with (write_next_i64 (len l) ;;
            for_each (fun item => write_next item) l).
    apply moves_forward_bind; [apply moves_forward_write_next_i64|].
    intros _. apply moves_forward_for_each. exact IH.
  - apply Hobj.
Qed.

Lemma moves_forward_read_next (t : typ Cls) :
  (forall cls : Cls, moves_forward (img_deserialize cls)) ->
  moves_forward (read_next t).
Proof.
  intros Hcls. induction t as [| |inner_typ IH|cls]; simpl.
  - apply moves_forward_bind; [apply moves_forward_read_next_i64|].
    intros; apply moves_forward_ret.
  - apply moves_forward_bind; [apply moves_forward_read_next_string|].
    intros; apply moves_forward_ret.
  - apply moves_forward_bind; [|intros; apply moves_forward_ret].
    apply moves_forward_read_next_list_with. exact IH.
  - apply moves_forward_bind; [apply Hcls|].
    intros; apply moves_forward_ret.
Qed.

End MovesForward.

Lemma Player_Example_moves_forward {S} {HS : ImgSurface S} :
  (forall p, moves_forward (S := S) (Player_Example.img_serialize p)) /\
  moves_forward (S := S) Player_Example.img_deserialize.
Proof.
  split.
  - intros p. unfold Player_Example.img_serialize.
    do 3 (apply moves_forward_bind;
          [apply moves_forward_write_bytes|intros _]).
    apply moves_forward_write_next_string.
  - unfold Player_Example.img_deserialize.
    do 3 (apply moves_forward_bind; [|intros ?];
          [apply moves_forward_bind;
           [apply moves_forward_read_next_bytes;
            intros; apply moves_forward_ret
           |intros; apply moves_forward_ret]|]).
    apply moves_forward_bind; [apply moves_forward_read_next_string|].
    intros ?. apply moves_forward_ret.
Qed.

(** X5 (monotonic cursor): every writing and reading method of the handler
    leaves [next_byte] where it was or further, and leaves the cached width
    and height untouched, whether it returns or raises; so do the generic
    [write_next], [write_next_list], [read_next] and [read_next_list] when
    the objects and classes they delegate to do. *)
Theorem cursor_moves_forward {S Obj Cls} {HS : ImgSurface S}
    {HO : ImgSerializable S Obj Cls} :
  (forall o : Obj, moves_forward (img_serialize o)) ->
  (forall cls : Cls, moves_forward (img_deserialize cls)) ->
  (forall b, moves_forward (write_next_byte b)) /\
  (forall val, moves_forward (write_next_i32 val)) /\
  (forall val, moves_forward (write_next_i64 val)) /\
  (forall val, moves_forward (write_next_string val)) /\
  (forall val : value Obj, moves_forward (write_next val)) /\
  (forall val : list (value Obj), moves_forward (write_next_list val)) /\
  moves_forward read_next_byte /\
  moves_forward read_next_i32 /\
  moves_forward read_next_i64 /\
  moves_forward read_next_string /\
  (forall t : typ Cls, moves_forward (read_next t)) /\
  (forall t : typ Cls, moves_forward (read_next_list t)).
Proof.
  intros Hobj Hcls.
  split; [apply (moves_forward_write_next_byte)|].
  split; [intros; apply (moves_forward_write_bytes)|].
  split; [apply (moves_forward_write_next_i64)|].
  split; [apply (moves_forward_write_next_string)|].
  split; [intros; apply moves_forward_write_next; exact Hobj|].
  split.
  { intros val. apply (moves_forward_write_next (VList val) Hobj). }
  split; [apply (moves_forward_read_next_byte)|].
  split.
  { apply moves_forward_bind; [|intros; apply moves_forward_ret].
    apply (moves_forward_read_next_bytes).
    intros; apply moves_forward_ret. }
  split; [apply (moves_forward_read_next_i64)|].
  split; [apply (moves_forward_read_next_string)|].
  split; [intros; apply moves_forward_read_next; exact Hcls|].
  intros t. unfold read_next_list.
  apply moves_forward_read_next_list_with, moves_forward_read_next.
  exact Hcls.
Qed.

Lemma cursor_moves_forward_witness :
  ((forall o : Player_Example.t,
      moves_forward (S := Grid) (img_serialize o)) /\
   (forall cls : player_class,
      moves_forward (S := Grid) (img_deserialize cls))) /\
  (forall val : value Player_Example.t,
     moves_forward (S := Grid) (write_next val)) /\
  (forall t : typ player_class, moves_forward (S := Grid) (read_next t)).
Proof.
  pose proof (Player_Example_moves_forward (S := Grid)) as [Hser Hde].
  split; [split; [exact Hser|intros cls; exact Hde]|].
  pose proof (cursor_moves_forward (S := Grid) (Obj := Player_Example.t)
                (Cls := player_class) Hser (fun _ => Hde)) as Hall.
  split; [apply Hall|apply Hall].
Defined.

(** ** X6, X7, X8: at the end of the surface *)

(** Past the capacity, on a surface that checks its bounds, a byte is
    neither read nor written, and the handler stays as it was. *)
Lemma byte_outside {S} {HS : ImgSurface S} {HL : ImgSurfaceLaws S}
    {HB : BoundsChecked S} (self : ImgHandler S) :
  handler_ok self ->
  capacity self <= next_byte self ->
  exists e, read_next_byte self = Raise e self /\
            forall b, write_next_byte b self = Raise e self.
Proof.
  intros (Hok & EW & EH & HW & Hn) Hcap. unfold capacity in Hcap.
  pose proof (spec_coordinate_outside (w self) (h self) (next_byte self)
                HW Hcap Hn) as Hgrid.
  rewrite EW, EH in Hgrid.
  destruct (get_at_outside _ _ Hgrid) as [e He]. rewrite <- EW in He.
  unfold spec_x, spec_y, spec_linear_pixel in He.
  exists e. split; [|intros b].
  - unfold read_next_byte.
    destruct (Z.eqb_spec (w self) 0); [lia|]. rewrite He. reflexivity.
  - unfold write_next_byte.
    destruct (Z.eqb_spec (w self) 0); [lia|]. rewrite He. reflexivity.
Qed.

(** More bytes than are left: the bytes that fit are written, then the
    write raises with the cursor at the capacity. *)
Lemma write_bytes_overflow {S} {HS : ImgSurface S} {HL : ImgSurfaceLaws S}
    {HB : BoundsChecked S} (bs : list Z) (self : ImgHandler S) :
  handler_ok self ->
  Forall (fun b => is_byte b = true) bs ->
  next_byte self <= capacity self ->
  capacity self < next_byte self + len bs ->
  exists e (self' : ImgHandler S),
    for_each write_next_byte bs self = Raise e self' /\
    next_byte self' = capacity self /\
    holds (surface self') (w self) (next_byte self)
      (take (Z.to_nat (capacity self - next_byte self)) bs).
Proof.
  intros Hok Hbs Hle Hlt. unfold len in Hlt.
  set (k := Z.to_nat (capacity self - next_byte self)).
  assert (Hk : (k < length bs)%nat) by (unfold k; lia).
  assert (Hlen : len (take k bs) = capacity self - next_byte self).
  { unfold len. rewrite length_take_le by lia. unfold k. lia. }
  destruct (write_bytes_ok (take k bs) self Hok (Forall_take _ _ _ Hbs))
    as (s1 & E1 & Hok1 & N1 & W1 & H1 & Hh & _); [lia|].
  assert (C1 : capacity s1 = capacity self)
    by (unfold capacity; rewrite W1, H1; reflexivity).
  destruct (byte_outside s1 Hok1 ltac:(lia)) as [e [_ He]].
  exists e, s1. split; [|split; [lia|exact Hh]].
  rewrite <- (take_drop k bs) at 1. rewrite for_each_app.
  rewrite (bind_ok _ _ _ _ _ E1).
  destruct (drop k bs) as [|b rest] eqn:Ed.
  - pose proof (length_drop bs k) as Hd. rewrite Ed in Hd. simpl in Hd. lia.
  - simpl. apply bind_raise. apply He.
Qed.

(** X6 (a string that does not fit): on a surface that checks its bounds,
    [write_next_string] of a string of 8-bit code points that needs more
    bytes than are left raises, but only after writing what fits: the
    cursor is left at the capacity and the surface holds, from the byte
    where the write began, the first bytes of the length and characters.
    Nothing is rolled back. *)
Theorem write_string_overflow {S} {HS : ImgSurface S} {HL : ImgSurfaceLaws S}
    {HB : BoundsChecked S} (self : ImgHandler S) (val : str) :
  handler_ok self ->
  Forall (fun b => is_byte b = true) val ->
  next_byte self <= capacity self ->
  capacity self < next_byte self + 8 + len val ->
  exists e (self' : ImgHandler S),
    write_next_string val self = Raise e self' /\
    next_byte self' = capacity self /\
    holds (surface self') (w self) (next_byte self)
      (take (Z.to_nat (capacity self - next_byte self))
         (bytes_i64 (len val) ++ val)).
Proof.
  intros Hok Hval Hle Hlt. rewrite write_next_string_bytes.
  apply write_bytes_overflow; auto.
  - apply Forall_app. split; [apply bytes_i64_byte|exact Hval].
  - rewrite len_app. change (len (bytes_i64 (len val))) with 8. lia.
Qed.

Lemma write_string_overflow_witness :
  let self : ImgHandler Grid := init (new_grid 2 2) in
  let val : str := [72; 101; 108; 108; 111] in
  (handler_ok self /\ Forall (fun b => is_byte b = true) val /\
   next_byte self <= capacity self /\
   capacity self < next_byte self + 8 + len val) /\
  exists e (self' : ImgHandler Grid),
    write_next_string val self = Raise e self' /\
    next_byte self' = capacity self /\
    holds (surface self') (w self) (next_byte self)
      (take (Z.to_nat (capacity self - next_byte self))
         (bytes_i64 (len val) ++ val)).
Proof.
  intros self val.
  assert (Hok : handler_ok self)
    by (apply init_ok; [apply new_grid_ok|simpl; lia]).
  assert (Hval : Forall (fun b => is_byte b = true) val)
    by (do 5 (constructor; [reflexivity|]); constructor).
  assert (Hle : next_byte self <= capacity self)
    by (vm_compute; discriminate).
  assert (Hlt : capacity self < next_byte self + 8 + len val)
    by (vm_compute; reflexivity).
  split; [split; [exact Hok|split; [exact Hval|split; [exact Hle|exact Hlt]]]|].
  apply (write_string_overflow self val Hok Hval Hle Hlt).
Defined.

Lemma read_next_i32_holds {S} {HS : ImgSurface S} {HL : ImgSurfaceLaws S}
    (self : ImgHandler S) (bs : list Z) :
  w self <> 0 -> length bs = 4%nat ->
  holds (surface self) (w self) (next_byte self) bs ->
  read_next_i32 self
  = Ok (signed_i32 (fold_left shift_in bs 0)) (advance self 4).
Proof.
  intros HW Hlen Hh.
  pose proof (read_next_bytes_holds
                (fun output byte => ret (Z.shiftl output 8 + byte))
                shift_in bs 0 self HW Hh (fun _ _ _ _ => eq_refl)) as E.
  unfold len in E. rewrite Hlen in E. change (Z.of_nat 4) with 4 in E.
  unfold read_next_i32. rewrite (bind_ok _ _ _ _ _ E). reflexivity.
Qed.

Lemma read_next_i64_holds {S} {HS : ImgSurface S} {HL : ImgSurfaceLaws S}
    (self : ImgHandler S) (bs : list Z) :
  w self <> 0 -> length bs = 8%nat ->
  holds (surface self) (w self) (next_byte self) bs ->
  read_next_i64 self
  = Ok (signed_i64 (fold_left shift_in bs 0)) (advance self 8).
Proof.
  intros HW Hlen Hh.
  pose proof (read_next_bytes_holds
                (fun output byte => ret (Z.shiftl output 8 + byte))
                shift_in bs 0 self HW Hh (fun _ _ _ _ => eq_refl)) as E.
  unfold len in E. rewrite Hlen in E. change (Z.of_nat 8) with 8 in E.
  unfold read_next_i64. rewrite (bind_ok _ _ _ _ _ E). reflexivity.
Qed.

(** X7 (reading inside the capacity): on a surface of 8-bit pixels,
    [read_next_i32] with four bytes left and [read_next_i64] with eight
    bytes left always return, whatever the surface holds, having moved the
    cursor by 4 and by 8; the integer returned lies in
    [-2^31 - 1, 2^31 - 2], respectively [-2^63 - 1, 2^63 - 2]. *)
Theorem read_int_inside_capacity {S} {HS : ImgSurface S}
    {HL : ImgSurfaceLaws S} (self : ImgHandler S) :
  handler_ok self ->
  (next_byte self + 4 <= capacity self ->
   exists r, read_next_i32 self = Ok r (advance self 4) /\
             - 2 ^ 31 - 1 <= r <= 2 ^ 31 - 2) /\
  (next_byte self + 8 <= capacity self ->
   exists r, read_next_i64 self = Ok r (advance self 8) /\
             - 2 ^ 63 - 1 <= r <= 2 ^ 63 - 2).
Proof.
  intros Hok. assert (HW : w self <> 0)
    by (destruct Hok as (_ & _ & _ & ? & _); lia).
  split; intros Hcap.
  - destruct (handler_stream self 4 Hok Hcap) as (bs & Hlen & Hbs & Hh).
    assert (Elen : len bs = 4) by (unfold len; rewrite Hlen; reflexivity).
    pose proof (fold_shift_in_bound bs 0 0 Hbs ltac:(lia) ltac:(lia)) as Hu.
    rewrite Elen in Hu.
    exists (signed_i32 (fold_left shift_in bs 0)). split.
    + apply read_next_i32_holds; assumption.
    + apply signed_i32_range. exact Hu.
  - destruct (handler_stream self 8 Hok Hcap) as (bs & Hlen & Hbs & Hh).
    assert (Elen : len bs = 8) by (unfold len; rewrite Hlen; reflexivity).
    pose proof (fold_shift_in_bound bs 0 0 Hbs ltac:(lia) ltac:(lia)) as Hu.
    rewrite Elen in Hu.
    exists (signed_i64 (fold_left shift_in bs 0)). split.
    + apply read_next_i64_holds; assumption.
    + apply signed_i64_range. exact Hu.
Qed.

Lemma read_int_inside_capacity_witness :
  let self : ImgHandler Grid := seek (init (new_grid 8 8)) 184 in
  handler_ok self /\
  exists r, read_next_i64 self = Ok r (advance self 8) /\
            - 2 ^ 63 - 1 <= r <= 2 ^ 63 - 2.
Proof.
  intros self.
  assert (Hok : handler_ok self).
  { apply seek_ok; [|lia]. apply init_ok; [apply new_grid_ok|simpl; lia]. }
  split; [exact Hok|].
  apply (proj2 (read_int_inside_capacity self Hok)).
  vm_compute. discriminate.
Defined.

Lemma advance_ok {S} {HS : ImgSurface S} {HL : ImgSurfaceLaws S}
    (self : ImgHandler S) (k : Z) :
  handler_ok self -> 0 <= k -> handler_ok (advance self k).
Proof.
  intros (Hok & EW & EH & HW & Hn) Hk. unfold handler_ok, advance. simpl.
  split; [exact Hok|]. split; [exact EW|]. split; [exact EH|].
  split; [exact HW|lia].
Qed.

(** A loop that asks for more bytes than are left reads what is left and
    raises with the cursor at the capacity. *)
Lemma read_loop_overflow {S} {HS : ImgSurface S} {HL : ImgSurfaceLaws S}
    {HB : BoundsChecked S} {A} (body : A -> Z -> M S A) (m : nat) :
  (forall acc b hd, is_byte b = true -> exists r, body acc b hd = Ok r hd) ->
  forall (acc : A) (self : ImgHandler S),
    handler_ok self ->
    next_byte self <= capacity self ->
    capacity self < next_byte self + Z.of_nat m ->
    exists e,
      for_range m (fun acc => byte <- read_next_byte ;; body acc byte)
        acc self
      = Raise e (seek self (capacity self)).
Proof.
  intros Hbody. induction m as [|m IH]; intros acc self Hok Hle Hlt; [lia|].
  simpl for_range.
  destruct (Z.eq_dec (next_byte self) (capacity self)) as [Heq|Hne].
  - destruct (byte_outside self Hok ltac:(lia)) as [e [He _]].
    exists e. apply bind_raise. rewrite (bind_raise _ _ _ _ _ He).
    f_equal. destruct self. unfold seek, capacity in *. simpl in *.
    f_equal. exact Heq.
  - assert (Hone : next_byte self + Z.of_nat 1 <= capacity self) by lia.
    destruct (handler_stream self 1 Hok Hone) as (bs & Hlen & Hbs & Hh).
    destruct bs as [|b [|? ?]]; try discriminate.
    inversion Hbs as [|? ? Hb _]; subst.
    assert (E1 : read_next_byte self = Ok b (advance self 1)).
    { apply read_next_byte_at.
      - destruct Hok as (_ & _ & _ & ? & _). lia.
      - specialize (Hh 0%nat b eq_refl). rewrite Z.add_0_r in Hh.
        exact Hh. }
    destruct (Hbody acc b (advance self 1) Hb) as [r E2].
    destruct (IH r (advance self 1) (advance_ok self 1 Hok ltac:(lia)))
      as [e E3].
    + unfold capacity in *. simpl. lia.
    + unfold capacity in *. simpl. lia.
    + exists e.
      rewrite (bind_ok _ _ self r (advance self 1))
        by (rewrite (bind_ok _ _ _ _ _ E1); exact E2).
      exact E3.
Qed.

(** X8 (reading past the end): on a surface that checks its bounds, a read
    that needs more bytes than are left raises after consuming what is
    left, with the cursor at the capacity: [read_next_i32] with fewer than
    four bytes left, [read_next_i64] with fewer than eight, and
    [read_next_string] when the length it reads is more than the bytes that
    follow. *)
Theorem read_past_the_end {S} {HS : ImgSurface S} {HL : ImgSurfaceLaws S}
    {HB : BoundsChecked S} (self : ImgHandler S) :
  handler_ok self ->
  next_byte self <= capacity self ->
  (capacity self < next_byte self + 4 ->
   exists e, read_next_i32 self = Raise e (seek self (capacity self))) /\
  (capacity self < next_byte self + 8 ->
   exists e, read_next_i64 self = Raise e (seek self (capacity self))) /\
  (forall size : Z,
     read_next_i64 self = Ok size (advance self 8) ->
     next_byte self + 8 <= capacity self ->
     capacity self < next_byte self + 8 + size ->
     exists e, read_next_string self = Raise e (seek self (capacity self))).
Proof.
  intros Hok Hle.
  assert (Hpure : forall (acc b : Z) (hd : ImgHandler S),
             is_byte b = true ->
             exists r, ret (Z.shiftl acc 8 + b) hd = Ok r hd)
    by (intros; eexists; reflexivity).
  split; [|split].
  - intros Hlt.
    destruct (read_loop_overflow _ 4 Hpure 0 self Hok Hle ltac:(lia))
      as [e He].
    exists e. unfold read_next_i32. apply bind_raise. exact He.
  - intros Hlt.
    destruct (read_loop_overflow _ 8 Hpure 0 self Hok Hle ltac:(lia))
      as [e He].
    exists e. unfold read_next_i64. apply bind_raise. exact He.
  - intros size Esize Hfit Hlt.
    destruct (read_loop_overflow
                (fun (output : str) ord =>
                   match chr ord with
                   | inl e => raise e
                   | inr char => ret (output ++ [char])
                   end) (Z.to_nat size)) with (acc := @nil Z)
        (self := advance self 8) as [e He].
    + intros acc b hd Hb. rewrite (chr_byte b Hb). eexists. reflexivity.
    + apply advance_ok; [exact Hok|lia].
    + unfold capacity in *. simpl. lia.
    + unfold capacity in *. simpl. lia.
    + exists e. unfold read_next_string.
      rewrite (bind_ok _ _ _ _ _ Esize). exact He.
Qed.

Lemma read_past_the_end_witness :
  let self : ImgHandler Grid := seek (init (new_grid 1 1)) 1 in
  (handler_ok self /\ next_byte self <= capacity self) /\
  exists e, read_next_i32 self = Raise e (seek self (capacity self)).
Proof.
  intros self.
  assert (Hok : handler_ok self).
  { apply seek_ok; [|lia]. apply init_ok; [apply new_grid_ok|simpl; lia]. }
  assert (Hle : next_byte self <= capacity self)
    by (vm_compute; discriminate).
  split; [split; [exact Hok|exact Hle]|].
  apply (proj1 (read_past_the_end self Hok Hle)).
  vm_compute. reflexivity.
Defined.

(** ** X9: a length that is not positive *)

(** X9 (negative length prefix): where an integer of [-2^63 - 1, 0] was
    written with [write_next_i64], [read_next_string] returns the empty
    string and [read_next_list] the empty list, having consumed the eight
    bytes of the integer and nothing else: a negative length is not an
    error. *)
Theorem nonpositive_length_reads_empty {S Obj Cls} {HS : ImgSurface S}
    {HL : ImgSurfaceLaws S} {HO : ImgSerializable S Obj Cls}
    (self : ImgHandler S) (val : Z) :
  handler_ok self ->
  next_byte self + 8 <= capacity self ->
  - 2 ^ 63 - 1 <= val <= 0 ->
  exists self' : ImgHandler S,
    write_next_i64 val self = Ok tt self' /\
    read_next_string (seek self' (next_byte self)) = Ok [] self' /\
    forall t : typ Cls,
      read_next_list t (seek self' (next_byte self)) = Ok [] self'.
Proof.
  intros Hok Hcap Hval.
  destruct (encodes_round_trip _ _ _ _ self (encodes_i64_mod val) Hok Hcap)
    as (self' & E & _ & _ & R).
  assert (Hr : signed_i64 (val mod 2 ^ 64) = val)
    by (apply signed_i64_window; lia).
  rewrite Hr in R.
  assert (Hnat : Z.to_nat val = 0%nat) by lia.
  exists self'. split; [exact E|]. split.
  - unfold read_next_string. rewrite (bind_ok _ _ _ _ _ R).
    unfold read_next_bytes. rewrite Hnat. reflexivity.
  - intros t. unfold read_next_list, read_next_list_with.
    rewrite (bind_ok _ _ _ _ _ R). rewrite Hnat. reflexivity.
Qed.

Lemma nonpositive_length_reads_empty_witness :
  let self : ImgHandler Grid := init (new_grid 8 8) in
  (handler_ok self /\ next_byte self + 8 <= capacity self /\
   - 2 ^ 63 - 1 <= -1 <= 0) /\
  exists self' : ImgHandler Grid,
    write_next_i64 (-1) self = Ok tt self' /\
    read_next_string (seek self' (next_byte self)) = Ok [] self' /\
    forall t : typ player_class,
      read_next_list (Obj := Player_Example.t) t (seek self' (next_byte self))
      = Ok [] self'.
Proof.
  intros self.
  assert (Hok : handler_ok self)
    by (apply init_ok; [apply new_grid_ok|simpl; lia]).
  assert (Hcap : next_byte self + 8 <= capacity self)
    by (vm_compute; discriminate).
  assert (Hval : - 2 ^ 63 - 1 <= -1 <= 0) by lia.
  split; [split; [exact Hok|split; [exact Hcap|exact Hval]]|].
  apply (nonpositive_length_reads_empty (Obj := Player_Example.t)
           (Cls := player_class) self (-1) Hok Hcap Hval).
Defined.

(** ** X10: the example class *)

(** X10 ([Player_Example]): a player whose x, y and health lie in
    [-2^31, 2^31 - 2] and whose name is made of 8-bit code points is written
    by [write_next_object] in 20 bytes plus one byte per character of the
    name, and [read_next_object] from the same byte rebuilds the same
    player. *)
Theorem player_round_trip {S} {HS : ImgSurface S} {HL : ImgSurfaceLaws S}
    (self : ImgHandler S) (p : Player_Example.t) :
  handler_ok self ->
  - 2 ^ 31 <= Player_Example.x p < 2 ^ 31 - 1 ->
  - 2 ^ 31 <= Player_Example.y p < 2 ^ 31 - 1 ->
  - 2 ^ 31 <= Player_Example.health p < 2 ^ 31 - 1 ->
  Forall (fun b => is_byte b = true) (Player_Example.name p) ->
  len (Player_Example.name p) < I64MAX ->
  next_byte self + 20 + len (Player_Example.name p) <= capacity self ->
  exists self' : ImgHandler S,
    write_next_object p self = Ok tt self' /\
    next_byte self' = next_byte self + 20 + len (Player_Example.name p) /\
    read_next_object Player_Example_cls (seek self' (next_byte self))
    = Ok p self'.
Proof.
  intros Hok Hx Hy Hh Hname Hlen Hcap.
  pose proof (Player_Example_encodes p Hx Hy Hh Hname Hlen) as Henc.
  assert (Hsize : len (bytes_i32 (Player_Example.x p) ++
                       bytes_i32 (Player_Example.y p) ++
                       bytes_i32 (Player_Example.health p) ++
                       bytes_i64 (len (Player_Example.name p)) ++
                       Player_Example.name p)
                  = 20 + len (Player_Example.name p)).
  { rewrite !len_app.
    change (len (bytes_i32 (Player_Example.x p))) with 4.
    change (len (bytes_i32 (Player_Example.y p))) with 4.
    change (len (bytes_i32 (Player_Example.health p))) with 4.
    change (len (bytes_i64 (len (Player_Example.name p)))) with 8. lia. }
  destruct (encodes_round_trip _ _ _ _ self Henc Hok ltac:(lia))
    as (self' & E & _ & N & R).
  exists self'. split; [exact E|]. split; [lia|exact R].
Qed.

Lemma player_round_trip_witness :
  let self : ImgHandler Grid := seek (init (new_grid 50 50)) 82 in
  handler_ok self /\
  exists self' : ImgHandler Grid,
    write_next_object simple_player self = Ok tt self' /\
    next_byte self'
    = next_byte self + 20 + len (Player_Example.name simple_player) /\
    read_next_object Player_Example_cls (seek self' (next_byte self))
    = Ok simple_player self'.
Proof.
  intros self.
  assert (Hok : handler_ok self).
  { apply seek_ok; [|lia]. apply init_ok; [apply new_grid_ok|simpl; lia]. }
  split; [exact Hok|].
  apply (player_round_trip self simple_player Hok); simpl; try lia.
  - do 8 (constructor; [reflexivity|]). constructor.
  - vm_compute. reflexivity.
  - vm_compute. discriminate.
Defined.

(** ** X12, X13: values in a row, and lists *)

(** X12 (values written one after the other): two supported values written
    in a row are read back in a row, each at its type, from the byte where
    the first write began; the second write leaves the bytes of the first
    alone. *)
Theorem two_values_round_trip {S Obj Cls} {HS : ImgSurface S}
    {HL : ImgSurfaceLaws S} {HO : ImgSerializable S Obj Cls}
    (t1 t2 : typ Cls) (v1 v2 : value Obj) :
  supported t1 v1 -> supported t2 v2 ->
  exists size : Z,
    forall self : ImgHandler S,
      handler_ok self ->
      next_byte self + size <= capacity self ->
      exists self' : ImgHandler S,
        (write_next v1 ;; write_next v2) self = Ok tt self' /\
        next_byte self' = next_byte self + size /\
        (a <- read_next t1 ;; b <- read_next t2 ;; ret (a, b))
          (seek self' (next_byte self))
        = Ok (v1, v2) self'.
Proof.
  intros H1 H2.
  destruct (supported_encodes t1 v1 H1) as [bs1 E1].
  destruct (supported_encodes t2 v2 H2) as [bs2 E2].
  pose proof (encodes_bind _ _ _
                (fun a => b <- read_next t2 ;; ret (a, b)) v1 (v1, v2) _ _
                E1 (encodes_fmap _ _ (fun b => (v1, b)) _ _ E2)) as Hall.
  exists (len (bs1 ++ bs2)). intros self Hok Hcap.
  destruct (encodes_round_trip _ _ _ _ self Hall Hok Hcap)
    as (self' & E & _ & N & R).
  exists self'. split; [exact E|]. split; [exact N|exact R].
Qed.

Lemma two_values_round_trip_witness :
  (supported (S := Grid) (Obj := Player_Example.t) (TStr : typ player_class)
     (VStr [104; 105]) /\
   supported (S := Grid) (Obj := Player_Example.t) (TInt : typ player_class)
     (VInt (-1))) /\
  exists size : Z,
    forall self : ImgHandler Grid,
      handler_ok self ->
      next_byte self + size <= capacity self ->
      exists self' : ImgHandler Grid,
        (write_next (Obj := Player_Example.t) (VStr [104; 105]) ;;
         write_next (VInt (-1))) self = Ok tt self' /\
        next_byte self' = next_byte self + size /\
        (a <- read_next (TStr : typ player_class) ;;
         b <- read_next TInt ;; ret (a, b))
          (seek self' (next_byte self))
        = Ok (VStr [104; 105], VInt (-1)) self'.
Proof.
  assert (H1 : supported (S := Grid) (Obj := Player_Example.t)
                 (TStr : typ player_class) (VStr [104; 105])).
  { split; [|vm_compute; reflexivity].
    do 2 (constructor; [reflexivity|]). constructor. }
  assert (H2 : supported (S := Grid) (Obj := Player_Example.t)
                 (TInt : typ player_class) (VInt (-1)))
    by (simpl; lia).
  split; [split; [exact H1|exact H2]|].
  apply (two_values_round_trip TStr TInt _ _ H1 H2).
Defined.

(** X13 ([write_next_list] then [read_next_list]): a list of supported
    values of one type, written where it fits, is read back at that type
    from the same byte as the same list, items in the order written. *)
Theorem list_round_trip {S Obj Cls} {HS : ImgSurface S}
    {HL : ImgSurfaceLaws S} {HO : ImgSerializable S Obj Cls}
    (t : typ Cls) (items : list (value Obj)) :
  Forall (supported t) items ->
  len items < I64MAX ->
  exists size : Z,
    8 <= size /\
    forall self : ImgHandler S,
      handler_ok self ->
      next_byte self + size <= capacity self ->
      exists self' : ImgHandler S,
        write_next_list items self = Ok tt self' /\
        next_byte self' = next_byte self + size /\
        read_next_list t (seek self' (next_byte self)) = Ok items self'.
Proof.
  intros Hitems Hlen.
  assert (Hbss : exists bss,
             Forall2 (fun item bs =>
                        encodes (write_next item) (read_next t) item bs)
               items bss).
  { clear Hlen. induction Hitems as [|item l Hitem _ IHl].
    - exists []. constructor.
    - destruct (supported_encodes t item Hitem) as [bs Hbs].
      destruct IHl as [bss Hbss].
      exists (bs :: bss). constructor; assumption. }
  destruct Hbss as [bss Hbss].
  pose proof (encodes_list (fun item => write_next item) _ _ _ Hbss Hlen)
    as Henc.
  exists (len (bytes_i64 (len items) ++ concat bss)). split.
  - rewrite len_app. change (len (bytes_i64 (len items))) with 8.
    unfold len. lia.
  - intros self Hok Hcap.
    destruct (encodes_round_trip _ _ _ _ self Henc Hok Hcap)
      as (self' & E & _ & N & R).
    exists self'. split; [exact E|]. split; [exact N|exact R].
Qed.

Lemma list_round_trip_witness :
  let items : list (value Player_Example.t) :=
    [VInt 0; VInt 255; VInt 512; VInt 1024; VInt 2048; VInt (-1)] in
  (Forall (supported (S := Grid) (TInt : typ player_class)) items /\
   len items < I64MAX) /\
  exists size : Z,
    8 <= size /\
    forall self : ImgHandler Grid,
      handler_ok self ->
      next_byte self + size <= capacity self ->
      exists self' : ImgHandler Grid,
        write_next_list items self = Ok tt self' /\
        next_byte self' = next_byte self + size /\
        read_next_list (TInt : typ player_class)
          (seek self' (next_byte self))
        = Ok items self'.
Proof.
  intros items.
  assert (Hitems : Forall (supported (S := Grid) (TInt : typ player_class))
                     items)
    by (do 6 (constructor; [simpl; lia|]); constructor).
  assert (Hlen : len items < I64MAX) by (vm_compute; reflexivity).
  split; [split; [exact Hitems|exact Hlen]|].
  apply (list_round_trip TInt items Hitems Hlen).
Defined.

(** ** X14: the capacity of a surface *)

(** X14 (every channel is used once): on rows of W > 0 pixels, the position
    resolved for a byte index n >= 0 is inside the WxH grid exactly when
    n < W*H*3; two different byte indices never resolve to the same channel
    of the same pixel; and every channel 0, 1, 2 of every pixel of the grid
    is resolved by a byte index below W*H*3. *)
Theorem byte_index_bijection (W H : Z) :
  0 < W ->
  (forall n, 0 <= n ->
     in_grid W H (spec_x W n, spec_y W n) = true <-> n < 3 * W * H) /\
  (forall n k, 0 <= n -> 0 <= k ->
     (spec_x W n, spec_y W n, spec_channel n)
     = (spec_x W k, spec_y W k, spec_channel k) ->
     n = k) /\
  (forall x y c, 0 <= x < W -> 0 <= y < H -> 0 <= c < 3 ->
     exists n, 0 <= n < 3 * W * H /\
               (spec_x W n, spec_y W n, spec_channel n) = (x, y, c)).
Proof.
  intros HW. split; [|split].
  - intros n Hn. split.
    + intros Hin. destruct (Z.lt_ge_cases n (3 * W * H)) as [|Hge]; [auto|].
      rewrite (spec_coordinate_outside W H n HW Hge Hn) in Hin.
      discriminate.
    + intros Hlt. apply spec_coordinate_in_grid; lia.
  - intros n k Hn Hk [= Ex Ey Ec].
    apply (spec_coordinate_inj W); assumption.
  - intros x y c Hx Hy Hc. exists (3 * (y * W + x) + c).
    assert (Hdiv : (3 * (y * W + x) + c) / 3 = y * W + x)
      by (symmetry; apply Z.div_unique with (r := c); lia).
    assert (Hmod : (3 * (y * W + x) + c) mod 3 = c)
      by (symmetry; apply Z.mod_unique with (q := y * W + x); lia).
    split; [nia|].
    unfold spec_x, spec_y, spec_linear_pixel, spec_channel.
    rewrite Hdiv, Hmod. do 2 f_equal.
    + symmetry. apply Z.mod_unique with (q := y); lia.
    + symmetry. apply Z.div_unique with (r := x); lia.
Qed.

Lemma byte_index_bijection_witness :
  0 < 50 /\
  (in_grid 50 50 (spec_x 50 7499, spec_y 50 7499) = true <->
   7499 < 3 * 50 * 50) /\
  (in_grid 50 50 (spec_x 50 7500, spec_y 50 7500) = true <->
   7500 < 3 * 50 * 50).
Proof.
  assert (HW : 0 < 50) by lia.
  split; [exact HW|].
  split; apply (proj1 (byte_index_bijection 50 50 HW)); lia.
Defined.

(** ** X15: one cursor for reading and writing *)



(** ** X16: a surface without width *)

(** X16 (width zero): on a handler whose cached width is 0, every byte,
    integer and string method raises [ZeroDivisionError] at its first byte,
    before the surface is touched, and leaves the handler as it was. *)
Theorem zero_width_raises {S} {HS : ImgSurface S} (self : ImgHandler S) :
  w self = 0 ->
  (forall b, write_next_byte b self = Raise ZeroDivisionError self) /\
  (forall val, write_next_i32 val self = Raise ZeroDivisionError self) /\
  (forall val, write_next_i64 val self = Raise ZeroDivisionError self) /\
  (forall val, write_next_string val self = Raise ZeroDivisionError self) /\
  read_next_byte self = Raise ZeroDivisionError self /\
  read_next_i32 self = Raise ZeroDivisionError self /\
  read_next_i64 self = Raise ZeroDivisionError self /\
  read_next_string self = Raise ZeroDivisionError self.
Proof.
  intros HW.
  assert (Hwr : forall b, write_next_byte b self = Raise ZeroDivisionError self)
    by (intros b; unfold write_next_byte; rewrite HW; reflexivity).
  assert (Hrd : read_next_byte self = Raise ZeroDivisionError self)
    by (unfold read_next_byte; rewrite HW; reflexivity).
  assert (H64w : forall val,
             write_next_i64 val self = Raise ZeroDivisionError self).
  { intros val. rewrite write_next_i64_bytes.
    unfold bytes_i64. change (range 8) with [0; 1; 2; 3; 4; 5; 6; 7].
    cbn [fmap list_fmap for_each]. apply bind_raise. apply Hwr. }
  assert (H64r : read_next_i64 self = Raise ZeroDivisionError self).
  { unfold read_next_i64. apply bind_raise.
    unfold read_next_bytes. change (Z.to_nat 8) with 8%nat.
    cbn [for_range]. apply bind_raise. apply bind_raise. exact Hrd. }
  split; [exact Hwr|]. split; [|split; [exact H64w|split]].
  - intros val. rewrite write_next_i32_bytes.
    unfold bytes_i32. change (range 4) with [0; 1; 2; 3].
    cbn [fmap list_fmap for_each]. apply bind_raise. apply Hwr.
  - intros val. unfold write_next_string. apply bind_raise. apply H64w.
  - split; [exact Hrd|]. split; [|split; [exact H64r|]].
    + unfold read_next_i32. apply bind_raise.
      unfold read_next_bytes. change (Z.to_nat 4) with 4%nat.
      cbn [for_range]. apply bind_raise. apply bind_raise. exact Hrd.
    + unfold read_next_string. apply bind_raise. exact H64r.
Qed.

Lemma zero_width_raises_witness :
  let self : ImgHandler Grid := init (new_grid 0 5) in
  w self = 0 /\
  write_next_string [104; 105] self = Raise ZeroDivisionError self /\
  read_next_i32 self = Raise ZeroDivisionError self.
Proof.
  intros self.
  assert (HW : w self = 0) by reflexivity.
  split; [exact HW|]. split.
  - apply (zero_width_raises self HW).
  - apply (zero_width_raises self HW).
Defined.

(** ** X17, X18: the layout on the surface *)

Lemma byte_of_shift (val k : Z) :
  0 <= k -> Z.land (Z.shiftr val k) 255 = (val / 2 ^ k) mod 256.
Proof.
  intros Hk. change 255 with (Z.ones 8).
  rewrite Z.land_ones, Z.shiftr_div_pow2 by lia. reflexivity.
Qed.

(** X17 (big-endian integers): after [write_next_i32] (respectively
    [write_next_i64]) of any integer at byte n, byte n + i of the surface is
    byte 3 - i (respectively 7 - i) of the integer's two's complement, the
    most significant byte first: (val div 2^(8*(3-i))) mod 256. *)
Theorem integers_are_big_endian {S} {HS : ImgSurface S}
    {HL : ImgSurfaceLaws S} (self : ImgHandler S) (val : Z) :
  handler_ok self ->
  (next_byte self + 4 <= capacity self ->
   exists self' : ImgHandler S,
     write_next_i32 val self = Ok tt self' /\
     forall i, 0 <= i < 4 ->
       byte_at (surface self') (w self) (next_byte self + i)
       = Some ((val / 2 ^ (8 * (3 - i))) mod 256)) /\
  (next_byte self + 8 <= capacity self ->
   exists self' : ImgHandler S,
     write_next_i64 val self = Ok tt self' /\
     forall i, 0 <= i < 8 ->
       byte_at (surface self') (w self) (next_byte self + i)
       = Some ((val / 2 ^ (8 * (7 - i))) mod 256)).
Proof.
  intros Hok. split; intros Hcap.
  - rewrite write_next_i32_bytes.
    destruct (write_bytes_ok (bytes_i32 val) self Hok (bytes_i32_byte val)
                Hcap) as (self' & E & _ & _ & _ & _ & Hh & _).
    exists self'. split; [exact E|]. intros i Hi.
    replace i with (Z.of_nat (Z.to_nat i)) at 1 by lia.
    rewrite (Hh (Z.to_nat i) ((val / 2 ^ (8 * (3 - i))) mod 256));
      [reflexivity|].
    assert (Hcase : i = 0 \/ i = 1 \/ i = 2 \/ i = 3) by lia.
    unfold bytes_i32. change (range 4) with [0; 1; 2; 3].
    cbn [fmap list_fmap].
    destruct Hcase as [-> | [-> | [-> | ->]]]; simpl lookup;
      rewrite byte_of_shift by lia; reflexivity.
  - rewrite write_next_i64_bytes.
    destruct (write_bytes_ok (bytes_i64 val) self Hok (bytes_i64_byte val)
                Hcap) as (self' & E & _ & _ & _ & _ & Hh & _).
    exists self'. split; [exact E|]. intros i Hi.
    replace i with (Z.of_nat (Z.to_nat i)) at 1 by lia.
    rewrite (Hh (Z.to_nat i) ((val / 2 ^ (8 * (7 - i))) mod 256));
      [reflexivity|].
    assert (Hcase : i = 0 \/ i = 1 \/ i = 2 \/ i = 3 \/
                    i = 4 \/ i = 5 \/ i = 6 \/ i = 7) by lia.
    unfold bytes_i64. change (range 8) with [0; 1; 2; 3; 4; 5; 6; 7].
    cbn [fmap list_fmap].
    destruct Hcase as [-> | [-> | [-> | [-> | [-> | [-> | [-> | ->]]]]]]];
      simpl lookup; rewrite byte_of_shift by lia; reflexivity.
Qed.

Lemma integers_are_big_endian_witness :
  let self : ImgHandler Grid := init (new_grid 8 8) in
  handler_ok self /\
  exists self' : ImgHandler Grid,
    write_next_i32 9925 self = Ok tt self' /\
    forall i, 0 <= i < 4 ->
      byte_at (surface self') (w self) (next_byte self + i)
      = Some ((9925 / 2 ^ (8 * (3 - i))) mod 256).
Proof.
  intros self.
  assert (Hok : handler_ok self)
    by (apply init_ok; [apply new_grid_ok|simpl; lia]).
  split; [exact Hok|].
  apply (proj1 (integers_are_big_endian self 9925 Hok)).
  vm_compute. discriminate.
Defined.

(** X18 (layout of a string): after [write_next_string] of a string of
    8-bit code points that fits, the eight bytes at the cursor hold the
    length of the string, as [read_next_i64] reads it, and byte 8 + j after
    the cursor holds the code point of character j. *)
Theorem string_layout {S} {HS : ImgSurface S} {HL : ImgSurfaceLaws S}
    (self : ImgHandler S) (val : str) :
  handler_ok self ->
  Forall (fun b => is_byte b = true) val ->
  len val < I64MAX ->
  next_byte self + 8 + len val <= capacity self ->
  exists self' : ImgHandler S,
    write_next_string val self = Ok tt self' /\
    read_next_i64 (seek self' (next_byte self))
    = Ok (len val) (seek self' (next_byte self + 8)) /\
    forall (j : nat) (char : Z),
      val !! j = Some char ->
      byte_at (surface self') (w self) (next_byte self + 8 + Z.of_nat j)
      = Some (ord char).
Proof.
  intros Hok Hval Hlen Hcap. rewrite write_next_string_bytes.
  assert (HW : w self <> 0) by (destruct Hok as (_ & _ & _ & ? & _); lia).
  destruct (write_bytes_ok (bytes_i64 (len val) ++ val) self Hok)
    as (self' & E & _ & _ & W' & _ & Hh & _).
  { apply Forall_app. split; [apply bytes_i64_byte|exact Hval]. }
  { rewrite len_app. change (len (bytes_i64 (len val))) with 8. lia. }
  exists self'. split; [exact E|]. split.
  - pose proof (enc_read _ _ _ _
                  (encodes_i64 (len val)
                     ltac:(unfold I64MAX, len in *; lia))
                  (seek self' (next_byte self))) as R.
    simpl in R. rewrite W' in R.
    rewrite (R HW (holds_app_l _ _ _ _ _ Hh)). reflexivity.
  - intros j char Hj.
    pose proof (holds_app_r _ _ _ _ _ Hh j char Hj) as Hb.
    change (len (bytes_i64 (len val))) with 8 in Hb. exact Hb.
Qed.

Lemma string_layout_witness :
  let self : ImgHandler Grid := init (new_grid 8 8) in
  let val : str := [72; 105; 33] in
  (handler_ok self /\ Forall (fun b => is_byte b = true) val /\
   len val < I64MAX /\ next_byte self + 8 + len val <= capacity self) /\
  exists self' : ImgHandler Grid,
    write_next_string val self = Ok tt self' /\
    read_next_i64 (seek self' (next_byte self))
    = Ok (len val) (seek self' (next_byte self + 8)) /\
    forall (j : nat) (char : Z),
      val !! j = Some char ->
      byte_at (surface self') (w self) (next_byte self + 8 + Z.of_nat j)
      = Some (ord char).
Proof.
  intros self val.
  assert (Hok : handler_ok self)
    by (apply init_ok; [apply new_grid_ok|simpl; lia]).
  assert (Hval : Forall (fun b => is_byte b = true) val)
    by (do 3 (constructor; [reflexivity|]); constructor).
  assert (Hlen : len val < I64MAX) by (vm_compute; reflexivity).
  assert (Hcap : next_byte self + 8 + len val <= capacity self)
    by (vm_compute; discriminate).
  split;
    [split; [exact Hok|split; [exact Hval|split; [exact Hlen|exact Hcap]]]|].
  apply (string_layout self val Hok Hval Hlen Hcap).
Defined.
